(** * AI-RAG-app: the document processor and the RAG service

    A shallow embedding of [streamlit_app/document_processor.py],
    [streamlit_app/rag_service.py] and the handlers of
    [streamlit_app/app.py], and the properties of the chunker, the upload
    pipeline, the store adapter, the answer assembler and the page.

    Conventions.
    - A Python [str] is a list of characters; a character is a code point
      below 256 (Latin-1), held in an [ascii].
    - A Python [int] is a [Z].
    - A [while] loop is a [Fixpoint] on a fuel argument; running out of fuel
      is the outcome [OutOfFuel], never a result.
    - A Python exception is the outcome [Raises].
    - The external libraries (tiktoken, PyPDF2, python-docx, hashlib,
      chromadb, ollama) are parameters of the functions that call them. *)

From Stdlib Require Import ZArith Ascii String DecimalString DecimalZ Lia.
From stdpp Require Import base list gmap strings sorting.

Local Open Scope Z_scope.

(** ** Python primitives *)

Module Py.

Definition str := list ascii.
Definition bytes := list ascii.

(** A string literal. *)
Definition lit (s : string) : str := list_ascii_of_string s.

Definition code (c : ascii) : N := N_of_ascii c.

(** [len(x)] *)
Definition len {A} (l : list A) : Z := Z.of_nat (length l).

(** Truth value of a sequence: [if x:] holds when [x] is not empty. *)
Definition truthy {A} (l : list A) : bool :=
  match l with [] => false | _ :: _ => true end.

(** [c.isspace()] on the code points below 256. *)
Definition isspace (c : ascii) : bool :=
  let n := code c in
  ((9 <=? n) && (n <=? 13) || (28 <=? n) && (n <=? 32)
   || (n =? 133) || (n =? 160))%N.

Fixpoint lstrip (s : str) : str :=
  match s with
  | [] => []
  | c :: s' => if isspace c then lstrip s' else s
  end.

Definition rstrip (s : str) : str := rev (lstrip (rev s)).

(** [s.strip()] *)
Definition strip (s : str) : str := rstrip (lstrip s).

(** A string of whitespace only (the empty string too). *)
Definition blank (s : str) : Prop := Forall (fun c => isspace c = true) s.

(** [c.lower()] on the code points below 256: A-Z and the accented
    capitals 192-222 (but the multiplication sign 215) move up by 32. *)
Definition lower_char (c : ascii) : ascii :=
  let n := code c in
  if ((65 <=? n) && (n <=? 90)
      || (192 <=? n) && (n <=? 222) && negb (n =? 215))%N
  then ascii_of_N (n + 32) else c.

(** [s.lower()] *)
Definition lower (s : str) : str := map lower_char s.

(** One bound of a slice: a negative index counts from the end, and the
    result is clamped to [0 .. n]. *)
Definition slice_bound (n i : Z) : Z :=
  if i <? 0 then Z.max 0 (i + n) else Z.min i n.

(** [l[start:stop]] *)
Definition slice {A} (l : list A) (start stop : Z) : list A :=
  let a := slice_bound (len l) start in
  let b := slice_bound (len l) stop in
  take (Z.to_nat (b - a)) (drop (Z.to_nat a) l).

(** [s.split(sep)] for a separator of one character. *)
Fixpoint split (sep : ascii) (s : str) : list str :=
  match s with
  | [] => [[]]
  | c :: s' =>
      if Ascii.eqb c sep then [] :: split sep s'
      else match split sep s' with
           | [] => [[c]]
           | piece :: pieces => (c :: piece) :: pieces
           end
  end.

(** [sep.join(pieces)] *)
Fixpoint join (sep : str) (pieces : list str) : str :=
  match pieces with
  | [] => []
  | [piece] => piece
  | piece :: rest => piece ++ sep ++ join sep rest
  end.

(** [l[-1]]: the last element, [None] standing for IndexError. *)
Definition last_item {A} (l : list A) : option A := last l.

(** The values held in the metadata of a chunk. *)
Inductive value := VStr (s : str) | VInt (z : Z).

(** A [dict] with string keys, in insertion order; its keys are distinct. *)
Definition dict := list (str * value).

(** A chunk record, [{'content': ..., 'metadata': {...}}]; a key the dict
    lacks is [None]. *)
Record document := {
  content : option str;
  metadata : option dict
}.

Definition nl : str := ["010"%char].

(** The words of [s] after the characters of [word], which started a word
    and were not whitespace. *)
Fixpoint split_words (s : str) (word : str) : list str :=
  match s with
  | [] => if truthy word then [word] else []
  | c :: s' =>
      if isspace c
      then (if truthy word then word :: split_words s' [] else split_words s' [])
      else split_words s' (word ++ [c])
  end.

(** [s.split()]: the runs of characters between whitespace. *)
Definition words (s : str) : list str := split_words s [].

(** [a // b]: the floor of the quotient; [None] stands for
    ZeroDivisionError. *)
Definition floordiv (a b : Z) : option Z :=
  if b =? 0 then None else Some (a / b).

End Py.

(** ** Outcomes of a call *)

Inductive outcome (E A : Type) : Type :=
| Returns (a : A)
| Raises (e : E)
| OutOfFuel.
Arguments Returns {E A} a.
Arguments Raises {E A} e.
Arguments OutOfFuel {E A}.

(** ** document_processor.py *)

Module DocumentProcessor.
Import Py.

Definition token := N.

(** The tokenizer, [tiktoken.get_encoding("cl100k_base")]: [None] stands
    for a raised exception. *)
Record Encoding := {
  encode : str -> option (list token);
  decode : list token -> option str
}.

(** The object's fields, set in [__init__]. *)
Record t := {
  chunk_size : Z;
  chunk_overlap : Z;
  encoding : Encoding
}.

(** The exceptions the module raises. All but the last are [ValueError]s,
    told apart by their message. *)
Inductive error :=
| UnsupportedExtension (extension : str)
| UnsupportedFileType (file_type : str)
| NoTextContent
| PdfExtractionFailed
| DocxExtractionFailed
| UnicodeDecodeError.

Section Chunker.
Variable self : t.

Let S_ := chunk_size self.
Let O_ := chunk_overlap self.
Let enc := encoding self.

(** Lines 123-137: the end of the window that starts at [start]; [None]
    when the tokenizer raises. *)
Definition window_end (tokens : list token) (start : Z) : option Z :=
  let end_ := start + S_ in
  if end_ <? len tokens then
    chunk_text ← decode enc (slice tokens start end_);
    let sentences := split "." chunk_text in
    if 1 <? len sentences then
      let chunk_text := join (lit ".") (slice sentences 0 (-1)) ++ lit "." in
      chunk_tokens ← encode enc chunk_text;
      Some (start + len chunk_tokens)
    else Some end_
  else Some end_.

(** Lines 146-151: where the next window starts. *)
Definition next_start (end_ : Z) : Z :=
  let start := end_ - O_ in
  if start >=? end_ then end_ else start.

(** Lines 119-153: the [while] loop over the tokens; [None] when the
    tokenizer raises. *)
Fixpoint token_loop (fuel : nat) (tokens : list token) (start : Z)
    (chunks : list str) : outcome unit (list str) :=
  match fuel with
  | O => OutOfFuel
  | S fuel' =>
      if start <? len tokens then
        match window_end tokens start with
        | None => Raises ()
        | Some end_ =>
            match decode enc (slice tokens start end_) with
            | None => Raises ()
            | Some chunk_text =>
                let chunks :=
                  if truthy (strip chunk_text)
                  then chunks ++ [strip chunk_text] else chunks in
                token_loop fuel' tokens (next_start end_) chunks
            end
        end
      else Returns chunks
  end.

(** Lines 160-181: [_simple_text_split]. *)
Fixpoint char_loop (fuel : nat) (text : str) (start : Z)
    (chunks : list str) : outcome Empty_set (list str) :=
  match fuel with
  | O => OutOfFuel
  | S fuel' =>
      if start <? len text then
        let end_ := start + S_ * 4 in
        let chunk := slice text start end_ in
        let chunks :=
          if truthy (strip chunk) then chunks ++ [strip chunk] else chunks in
        let start := end_ - O_ * 4 in
        let start := if start >=? end_ then end_ else start in
        char_loop fuel' text start chunks
      else Returns chunks
  end.

Definition _simple_text_split (fuel : nat) (text : str)
    : outcome Empty_set (list str) :=
  char_loop fuel text 0 [].

(** Lines 112-158: [_split_text_into_chunks]. Every exception of the
    token path is caught and answered by the character fallback. *)
Definition _split_text_into_chunks (fuel : nat) (text : str)
    : outcome Empty_set (list str) :=
  match encode enc text with
  | None => _simple_text_split fuel text
  | Some tokens =>
      match token_loop fuel tokens 0 [] with
      | Returns chunks => Returns chunks
      | Raises _ => _simple_text_split fuel text
      | OutOfFuel => OutOfFuel
      end
  end.

End Chunker.

(** *** The upload pipeline *)

(** [uploaded_file]: its [name] and what [read()] returns. *)
Record UploadedFile := {
  name : str;
  file_bytes : bytes
}.

(** The libraries behind the extractors; [None] stands for a raised
    exception. [pdf_pages] is [PyPDF2.PdfReader(...).pages] with
    [extract_text()] applied to each page; [docx_document] is
    [docx.Document(...)], the texts of its paragraphs and, per table and row,
    of its cells; [utf8_decode] is [bytes.decode('utf-8')]. *)
Record Libraries := {
  pdf_pages : bytes -> option (list str);
  docx_document : bytes -> option (list str * list (list (list str)));
  utf8_decode : bytes -> option str
}.

(** What the pipeline does with the file, in order. *)
Inductive event := Read | ExtractPdf | ExtractDocx | DecodeUtf8.

(** Line 63: [filename.lower().split('.')[-1]]. [split] never answers an
    empty list, so the index is in range. *)
Definition file_extension (filename : str) : str :=
  default [] (last_item (split "." (lower filename))).

(** Lines 61-71: [_get_file_type]. *)
Definition _get_file_type (filename : str) : error + str :=
  let extension := file_extension filename in
  if decide (extension = lit "pdf") then inr (lit "pdf")
  else if decide (extension = lit "docx" \/ extension = lit "doc")
  then inr (lit "docx")
  else if decide (extension = lit "txt") then inr (lit "txt")
  else inl (UnsupportedExtension extension).

(** What follows the last [sep] of [s]; [None] when [s] holds no [sep]. *)
Fixpoint after_last (sep : ascii) (s : str) : option str :=
  match s with
  | [] => None
  | c :: s' =>
      match after_last sep s' with
      | Some rest => Some rest
      | None => if Ascii.eqb c sep then Some s' else None
      end
  end.

(** The extension of a file name as the specification speaks of it: what
    follows the last full stop of the name. A name with no full stop has no
    extension. This is not what line 63 computes; [file_extension] is. *)
Definition spec_extension (filename : str) : option str :=
  after_last "." filename.

Section Pipeline.
Variable self : t.
Variable libs : Libraries.

(** Lines 73-87: [_extract_pdf_text]. *)
Definition _extract_pdf_text (file_content : bytes) : error + str :=
  match pdf_pages libs file_content with
  | None => inl PdfExtractionFailed
  | Some pages =>
      let text := foldl (fun text page => text ++ (page ++ nl)) [] pages in
      inr (strip text)
  end.

(** Lines 89-110: [_extract_docx_text]. *)
Definition _extract_docx_text (file_content : bytes) : error + str :=
  match docx_document libs file_content with
  | None => inl DocxExtractionFailed
  | Some (paragraphs, tables) =>
      let text :=
        foldl (fun text paragraph => text ++ (paragraph ++ nl)) [] paragraphs in
      let text :=
        foldl (fun text table =>
          foldl (fun text row =>
            foldl (fun text cell => text ++ (cell ++ lit " ")) text row
            ++ nl) text table) text tables in
      inr (strip text)
  end.

(** Lines 40-52: the chunk records of one file. *)
Definition make_documents (filename file_type : str) (chunks : list str)
    : list document :=
  imap (fun i chunk =>
    {| content := Some chunk;
       metadata := Some
         [ (lit "filename", VStr filename);
           (lit "file_type", VStr file_type);
           (lit "chunk_index", VInt (Z.of_nat i));
           (lit "total_chunks", VInt (len chunks)) ] |}) chunks.

(** Lines 17-59: [process_uploaded_file], with the trace of what was done
    to the file. The [except] clause logs and raises again. *)
Definition process_uploaded_file (fuel : nat) (uploaded_file : UploadedFile)
    : list event * outcome error (list document) :=
  let file_content := file_bytes uploaded_file in
  let filename := name uploaded_file in
  match _get_file_type filename with
  | inl e => ([Read], Raises e)
  | inr file_type =>
      let '(extraction, extracted) :=
        if decide (file_type = lit "pdf")
        then ([ExtractPdf], _extract_pdf_text file_content)
        else if decide (file_type = lit "docx")
        then ([ExtractDocx], _extract_docx_text file_content)
        else if decide (file_type = lit "txt")
        then ([DecodeUtf8],
              match utf8_decode libs file_content with
              | Some text => inr text
              | None => inl UnicodeDecodeError
              end)
        else ([], inl (UnsupportedFileType file_type)) in
      let trace := Read :: extraction in
      match extracted with
      | inl e => (trace, Raises e)
      | inr text =>
          if negb (truthy (strip text)) then (trace, Raises NoTextContent)
          else
            match _split_text_into_chunks self fuel text with
            | Returns chunks =>
                (trace, Returns (make_documents filename file_type chunks))
            | Raises e => match e with end
            | OutOfFuel => (trace, OutOfFuel)
            end
      end
  end.

End Pipeline.

(** A tokenizer with one token per character, the token being the code
    point. *)
Definition char_encoding : Encoding := {|
  encode := fun s => Some (map code s);
  decode := fun ts => Some (map ascii_of_N ts)
|}.

(** A tokenizer that is not available: every call raises. *)
Definition failing_encoding : Encoding := {|
  encode := fun _ => None;
  decode := fun _ => None
|}.

(** A processor on the one-token-per-character tokenizer. *)
Definition char_processor (S_ O_ : Z) : t :=
  {| chunk_size := S_; chunk_overlap := O_; encoding := char_encoding |}.

(** One sentence of 900 tokens, its full stop, and 2000 tokens with no full
    stop. *)
Definition long_sentence_text : str :=
  repeat "a"%char 900 ++ "."%char :: repeat "a"%char 2000.

(** *** Vocabulary of the chunker's properties *)

(** A run, by its fuel, comes back with [a]: from some fuel on, that is
    what it returns. *)
Definition returns {E A} (run : nat -> outcome E A) (a : A) : Prop :=
  exists fuel0, forall fuel, (fuel0 <= fuel)%nat -> run fuel = Returns a.

(** A run that never comes back, whatever the fuel. *)
Definition diverges {E A} (run : nat -> outcome E A) : Prop :=
  forall fuel, run fuel = OutOfFuel.

(** Chunks that are not empty after trimming. *)
Definition well_trimmed (chunks : list str) : Prop :=
  Forall (fun chunk => strip chunk <> []) chunks.

(** What the chunker keeps of a window: its trimmed text, unless empty. *)
Definition keep (window : str) : list str :=
  if truthy (strip window) then [strip window] else [].

(** The first [n] windows of [size] characters, [step] apart, from
    [start] on. *)
Fixpoint windows_from (text : str) (size step : Z) (n : nat) (start : Z)
    : list str :=
  match n with
  | O => []
  | S n' =>
      slice text start (start + size)
      :: windows_from text size step n' (start + step)
  end.

(** The character windows of a text: [S * 4] characters each, the next one
    starting [O * 4] characters before the end of the last, as long as the
    start is inside the text. *)
Definition char_windows (S_ O_ : Z) (text : str) : list str :=
  let size := S_ * 4 in
  let step := size - O_ * 4 in
  windows_from text size step
    (Z.to_nat ((len text + step - 1) / step)) 0.

(** A tokenizer that decodes what it encoded, and decodes token by token:
    the text of a sequence of tokens is the texts of its parts, joined. *)
Record lawful (enc : Encoding) : Prop := {
  decode_encode : forall s tokens,
    encode enc s = Some tokens -> decode enc tokens = Some s;
  decode_app : forall a b,
    decode enc (a ++ b)
    = (ta ← decode enc a; tb ← decode enc b; Some (ta ++ tb))
}.

(** Every window ends more than the overlap past its start. A window that
    is not cut at a sentence boundary does; a cut one may not. *)
Definition advancing (self : t) (tokens : list token) : Prop :=
  forall start end_,
    0 <= start < len tokens ->
    window_end self tokens start = Some end_ ->
    start + chunk_overlap self < end_.

(** The first [n] windows of [size] tokens, [step] apart, from [start]
    on. *)
Fixpoint token_windows (tokens : list token) (size step : Z) (n : nat)
    (start : Z) : list (list token) :=
  match n with
  | O => []
  | S n' =>
      slice tokens start (start + size)
      :: token_windows tokens size step n' (start + step)
  end.

(** The windows of [S] tokens, the next one starting [O] tokens before the
    end of the last, as long as the start is inside the tokens. *)
Definition fixed_windows (self : t) (tokens : list token)
    : list (list token) :=
  let step := chunk_size self - chunk_overlap self in
  token_windows tokens (chunk_size self) step
    (Z.to_nat ((len tokens + step - 1) / step)) 0.

(** The text of a window, empty if the tokenizer raises. *)
Definition decoded (enc : Encoding) (window : list token) : str :=
  default [] (decode enc window).

(** A chunk is a piece of the text: some characters before it, some after. *)
Definition piece_of (chunk text : str) : Prop :=
  exists before after, text = before ++ chunk ++ after.

(** *** Text statistics *)

(** The dict that [get_text_stats] returns. *)
Record text_stats := {
  character_count : Z;
  word_count : Z;
  token_count : Z;
  estimated_chunks : Z
}.

(** Lines 183-200: [get_text_stats]. The [except] clause answers for an
    exception of the tokenizer and for the division by a chunk size of
    zero. *)
Definition get_text_stats (self : t) (text : str) : text_stats :=
  let fallback :=
    {| character_count := len text;
       word_count := len (words text);
       token_count := 0;
       estimated_chunks := 1 |} in
  match encode (encoding self) text with
  | None => fallback
  | Some tokens =>
      match floordiv (len tokens) (chunk_size self) with
      | None => fallback
      | Some quotient =>
          {| character_count := len text;
             word_count := len (words text);
             token_count := len tokens;
             estimated_chunks := Z.max 1 quotient |}
      end
  end.

End DocumentProcessor.

(** ** rag_service.py *)

Module RAGService.
Import Py.

(** *** Identifiers *)

(** [s.encode()]: UTF-8, one byte below 128 and two bytes from 128 to 255. *)
Definition utf8_encode (s : str) : bytes :=
  flat_map (fun c =>
    let n := code c in
    if (n <? 128)%N then [c]
    else [ascii_of_N (192 + n / 64); ascii_of_N (128 + n mod 64)]) s.

Definition quote : ascii := "034"%char.
Definition backslash : ascii := "092"%char.

Definition hex_digit (n : N) : ascii :=
  nth (N.to_nat n) (lit "0123456789abcdef") "0"%char.

(** One character of a JSON string, [ensure_ascii=True]: the quote, the
    backslash and the short escapes; what is not printable ASCII as
    [\u00xx]. *)
Definition json_escape_char (c : ascii) : str :=
  let n := code c in
  if (n =? 34)%N then [backslash; quote]
  else if (n =? 92)%N then [backslash; backslash]
  else if (n =? 10)%N then backslash :: lit "n"
  else if (n =? 13)%N then backslash :: lit "r"
  else if (n =? 9)%N then backslash :: lit "t"
  else if (n =? 12)%N then backslash :: lit "f"
  else if (n =? 8)%N then backslash :: lit "b"
  else if ((32 <=? n) && (n <=? 126))%N then [c]
  else backslash :: lit "u00" ++ [hex_digit (n / 16); hex_digit (n mod 16)].

Definition json_string (s : str) : str :=
  quote :: flat_map json_escape_char s ++ [quote].

Definition json_int (z : Z) : str :=
  lit (NilZero.string_of_int (Z.to_int z)).

Definition json_value (v : value) : str :=
  match v with
  | VStr s => json_string s
  | VInt z => json_int z
  end.

(** [a < b] on strings: by code point, the shorter first. *)
Fixpoint str_ltb (a b : str) : bool :=
  match a, b with
  | _, [] => false
  | [], _ :: _ => true
  | x :: a', y :: b' =>
      (code x <? code y)%N || (code x =? code y)%N && str_ltb a' b'
  end.

(** The items of a dict by ascending key, as [sort_keys=True] orders them:
    an item goes before the first one whose key is not smaller. *)
Fixpoint insert_item (item : str * value) (items : list (str * value))
    : list (str * value) :=
  match items with
  | [] => [item]
  | other :: rest =>
      if str_ltb other.1 item.1 then other :: insert_item item rest
      else item :: items
  end.

Definition sorted_items (d : dict) : list (str * value) :=
  foldr insert_item [] d.

(** The key of the first item is not after the key of the second. *)
Definition key_le (a b : str * value) : Prop := str_ltb b.1 a.1 = false.

(** [json.dumps(d, sort_keys=True)] *)
Definition json_dumps_sorted (d : dict) : str :=
  lit "{"
  ++ join (lit ", ")
       (map (fun item => json_string item.1 ++ lit ": " ++ json_value item.2)
            (sorted_items d))
  ++ lit "}".

(** Reading the serialization back, to show what it keeps apart: the
    character that an escape sequence at the head of a text stands for, with
    the rest of the text; the value of a hexadecimal digit; the characters
    of a decimal number. *)
Definition unhex (c : ascii) : N :=
  let n := code c in
  if (n <? 58)%N then (n - 48)%N else (n - 87)%N.

Definition json_unescape_char (s : str) : option (ascii * str) :=
  match s with
  | [] => None
  | c :: rest =>
      if Ascii.eqb c quote then None
      else if Ascii.eqb c backslash then
        match rest with
        | [] => None
        | e :: rest' =>
            if Ascii.eqb e "u" then
              match rest' with
              | _ :: _ :: hi :: lo :: rest'' =>
                  Some (ascii_of_N (16 * unhex hi + unhex lo), rest'')
              | _ => None
              end
            else if Ascii.eqb e "n" then Some ("010"%char, rest')
            else if Ascii.eqb e "r" then Some ("013"%char, rest')
            else if Ascii.eqb e "t" then Some ("009"%char, rest')
            else if Ascii.eqb e "f" then Some ("012"%char, rest')
            else if Ascii.eqb e "b" then Some ("008"%char, rest')
            else Some (e, rest')
        end
      else Some (c, rest)
  end.

Definition is_int_char (c : ascii) : bool :=
  let n := code c in
  ((n =? 45) || (48 <=? n) && (n <=? 57))%N.

(** The text of one item, as [json_dumps_sorted] writes it. *)
Definition item_text (item : str * value) : str :=
  json_string item.1 ++ lit ": " ++ json_value item.2.

(** *** The vector store *)

(** What the store does with an identifier it already holds when [add]
    brings it again: keep the old record, take the new one, or refuse the
    batch. *)
Inductive on_existing := Ignore | Overwrite | Reject.

(** The calls made to the store and to the generation service. *)
Inductive call :=
| Add (ids documents : list str) (metadatas : list dict)
| Query (query_texts : list str) (n_results : Z)
| Generate (model prompt : str).

(** The collection: its records by identifier. *)
Abbreviation records := (gmap str (str * dict)).

(** The service's view of the world: the collection behind
    [self.collection] and the log of the calls sent out. *)
Record state := {
  items : records;
  calls : list call
}.

(** [collection.count()] *)
Definition count (st : state) : nat := size (items st).

Definition add_record (policy : on_existing) (recs : records)
    (row : str * (str * dict)) : records :=
  match policy, recs !! row.1 with
  | Ignore, Some _ => recs
  | _, _ => <[row.1 := row.2]> recs
  end.

(** [collection.add(documents=, metadatas=, ids=)]: [None] stands for a
    raised exception, which leaves the collection as it was. The three
    lists must be as long as each other and not empty, the identifiers
    of a batch distinct, and no metadata an empty dict (the store's
    validation raises ValueError for [{}]). *)
Definition collection_add (policy : on_existing)
    (ids documents : list str) (metadatas : list dict) (recs : records)
    : option records :=
  if negb (truthy ids) then None
  else if negb (bool_decide (length documents = length ids
                             /\ length metadatas = length ids)) then None
  else if negb (bool_decide (NoDup ids)) then None
  else if negb (forallb truthy metadatas) then None
  else
    match policy with
    | Reject =>
        if bool_decide (Exists (fun id => is_Some (recs !! id)) ids) then None
        else Some (foldl (add_record policy) recs
                     (zip ids (zip documents metadatas)))
    | _ => Some (foldl (add_record policy) recs
                   (zip ids (zip documents metadatas)))
    end.

(** What [collection.query] answers: [results['documents']] and so on, each
    [None] or one list per query text. *)
Record query_result (distance : Type) := {
  documents : option (list (list str));
  metadatas : option (list (list dict));
  distances : option (list (list distance))
}.
Arguments documents {distance} _.
Arguments metadatas {distance} _.
Arguments distances {distance} _.

(** One formatted search result. *)
Record search_result (distance : Type) := {
  result_content : str;
  result_metadata : dict;
  result_distance : option distance
}.
Arguments result_content {distance} _.
Arguments result_metadata {distance} _.
Arguments result_distance {distance} _.

(** Both results carry a distance, and the first is not the farther. *)
Definition by_distance {distance} (closer : relation distance)
    (a b : search_result distance) : Prop :=
  match result_distance a, result_distance b with
  | Some x, Some y => closer x y
  | _, _ => False
  end.

(** [results[key]] is true when it is neither [None] nor empty. *)
Definition present {A} (field : option (list A)) : bool :=
  match field with
  | Some (_ :: _) => true
  | _ => false
  end.

(** [results[key][0][i]], [None] standing for IndexError or TypeError. *)
Definition cell {A} (field : option (list (list A))) (i : nat) : option A :=
  rows ← field; row ← rows !! 0%nat; row !! i.

(** What [ollama_client.generate] answers: the dict's ['response'] entry if
    it has one. What it raises: the exception's [str(e)]. *)
Definition generation := (str + option str)%type.

Section Service.
Context {distance : Type}.

(** [hashlib.md5(b).hexdigest()] *)
Variable md5_hexdigest : bytes -> str.
(** The store's answer to a query, by its records; [None] when it
    raises. *)
Variable collection_query :
  records -> list str -> Z -> option (query_result distance).
(** The generation service. *)
Variable ollama_generate : str -> str -> generation.
Variable policy : on_existing.

(** Lines 129-134: [_generate_doc_id]. *)
Definition _generate_doc_id (content : str) (metadata : dict) : str :=
  let content_hash := md5_hexdigest (utf8_encode content) in
  let metadata_str := json_dumps_sorted metadata in
  let metadata_hash := md5_hexdigest (utf8_encode metadata_str) in
  content_hash ++ lit "_" ++ metadata_hash.

(** Lines 105-113: the three lists built from the documents; [None] when
    a document has no ['content'] (KeyError). *)
Fixpoint prepare (documents : list document)
    (ids texts : list str) (metadatas : list dict)
    : option (list str * list str * list dict) :=
  match documents with
  | [] => Some (ids, texts, metadatas)
  | doc :: rest =>
      c ← content doc;
      let doc_id := _generate_doc_id c (default [] (metadata doc)) in
      prepare rest (ids ++ [doc_id]) (texts ++ [c])
        (metadatas ++ [default [] (metadata doc)])
  end.

(** Lines 98-127: [add_documents]. *)
Definition add_documents (documents : list document) (st : state)
    : bool * state :=
  if negb (truthy documents) then (true, st)
  else
    match prepare documents [] [] [] with
    | None => (false, st)
    | Some (ids, texts, metadatas) =>
        let sent := calls st ++ [Add ids texts metadatas] in
        match collection_add policy ids texts metadatas (items st) with
        | Some recs => (true, {| items := recs; calls := sent |})
        | None => (false, {| items := items st; calls := sent |})
        end
    end.

(** Lines 144-153: the results of the first query text, formatted;
    [None] when an index is out of range. *)
Definition format_results (results : query_result distance)
    : option (list (search_result distance)) :=
  if present (documents results) then
    row ← (rows ← documents results; rows !! 0%nat);
    mapM (fun '(i, doc) =>
            m ← (if present (metadatas results)
                 then cell (metadatas results) i else Some []);
            d ← (if present (distances results)
                 then Some <$> cell (distances results) i else Some None);
            Some {| result_content := doc;
                    result_metadata := m;
                    result_distance := d |})
         (imap pair row)
  else Some [].

(** Lines 136-159: [search_documents]. *)
Definition search_documents (query : str) (n_results : Z) (st : state)
    : list (search_result distance) * state :=
  let st' := {| items := items st;
                calls := calls st ++ [Query [query] n_results] |} in
  match collection_query (items st) [query] n_results with
  | None => ([], st')
  | Some results =>
      match format_results results with
      | Some formatted_results => (formatted_results, st')
      | None => ([], st')
      end
  end.

Definition error_prefix : str := lit "Error generating response: ".

(** Lines 168-175: the prompt. *)
Definition make_prompt (context query : str) : str :=
  lit "Based on the following context, please answer the question. If the answer cannot be found in the context, please say so."
  ++ nl ++ nl ++ lit "Context:" ++ nl ++ context
  ++ nl ++ nl ++ lit "Question: " ++ query
  ++ nl ++ nl ++ lit "Answer:".

(** Lines 161-188: [generate_response]. A KeyError prints as the key
    between single quotes. *)
Definition generate_response (query : str) (context_docs : list document)
    (model : str) (st : state) : str * state :=
  match mapM content context_docs with
  | None => (error_prefix ++ lit "'content'", st)
  | Some contents =>
      let context := join (nl ++ nl) contents in
      let prompt := make_prompt context query in
      let st' := {| items := items st;
                    calls := calls st ++ [Generate model prompt] |} in
      match ollama_generate model prompt with
      | inl e => (error_prefix ++ e, st')
      | inr (Some response) => (response, st')
      | inr None => (error_prefix ++ lit "'response'", st')
      end
  end.

End Service.

(** *** Connecting to the services *)

Inductive service := Ollama | Chroma.

(** What [_initialize_clients] does, in order: an attempt to reach a
    service, a sleep, the call for the collection. *)
Inductive boot_event :=
| Connect (s : service) (attempt : nat)
| Sleep (seconds : Z)
| GetOrCreateCollection.

Definition max_retries : nat := 10.
Definition retry_delay : Z := 5.

(** How a retry loop ends: with a client, with the exception of line 42 or
    61, or without having run (an empty [range]). *)
Inductive connection := Connected | GaveUp | Untried.

(** Lines 30-42 and 45-61: one retry loop. [up attempt] tells whether the
    attempt of that number gets through (the client is built and answers);
    [rounds] is what is left of [range(max_retries)]. *)
Fixpoint connect_loop (s : service) (up : nat -> bool)
    (attempt rounds : nat) : list boot_event * connection :=
  match rounds with
  | O => ([], Untried)
  | S rounds' =>
      if up attempt then ([Connect s attempt], Connected)
      else if (attempt <? max_retries - 1)%nat then
        let '(events, result) := connect_loop s up (S attempt) rounds' in
        (Connect s attempt :: Sleep retry_delay :: events, result)
      else ([Connect s attempt], GaveUp)
  end.

(** Lines 24-76: [_initialize_clients] and [_initialize_collection]. The
    answer is [true] when the service is built and [false] when an
    exception leaves [__init__]; [collection_ok] tells whether
    [get_or_create_collection] gets through. *)
Definition _initialize_clients (ollama_up chroma_up : nat -> bool)
    (collection_ok : bool) : list boot_event * bool :=
  let '(ollama_events, ollama) := connect_loop Ollama ollama_up 0 max_retries in
  match ollama with
  | GaveUp => (ollama_events, false)
  | _ =>
      let '(chroma_events, chroma) :=
        connect_loop Chroma chroma_up 0 max_retries in
      match chroma with
      | Connected =>
          (ollama_events ++ chroma_events ++ [GetOrCreateCollection],
           collection_ok)
      | _ => (ollama_events ++ chroma_events, false)
      end
  end.

(** The attempts at a service and the seconds slept in a trace. *)
Definition same_service (a b : service) : bool :=
  match a, b with
  | Ollama, Ollama | Chroma, Chroma => true
  | _, _ => false
  end.

Definition attempts_of (s : service) (events : list boot_event) : nat :=
  foldr (fun e n => match e with
                    | Connect s' _ => if same_service s' s then S n else n
                    | _ => n
                    end) 0%nat events.

Definition seconds_slept (events : list boot_event) : Z :=
  foldr (fun e total => match e with
                        | Sleep seconds => seconds + total
                        | _ => total
                        end) 0 events.

End RAGService.

(** ** app.py *)

Module App.
Import Py DocumentProcessor RAGService.

(** What the page shows after a step: lines 236, 238, 244, 247, 249, 252
    and 296. *)
Inductive message :=
| Processed (name : str) (chunks : nat)
| ProcessingError (name : str) (e : error)
| Added (chunks : nat)
| AddFailed
| NothingProcessed
| Crashed
| NoRelevantDocuments.

Inductive role := User | Assistant.

(** [st.session_state]: the service, the flag and the chat history. *)
Record session := {
  rag : state;
  documents_loaded : bool;
  chat_history : list (role * str)
}.

(** A search result read as a context document: [generate_response] reads
    its ['content'] only. *)
Definition as_context {distance} (r : search_result distance) : document :=
  {| content := Some (result_content r);
     metadata := Some (result_metadata r) |}.

Section App.
Context {distance : Type}.

(** [tiktoken.get_encoding], called when a processor is built; [None] when
    it raises. *)
Variable get_encoding : option Encoding.
Variable libs : Libraries.
Variable md5_hexdigest : bytes -> str.
Variable policy : on_existing.
Variable collection_query :
  records -> list str -> Z -> option (query_result distance).
Variable ollama_generate : str -> str -> generation.

(** Lines 231-238: the loop over the files, each in its own [try]. *)
Fixpoint process_files (processor : t) (fuel : nat)
    (files : list UploadedFile) (all_documents : list document)
    (messages : list message)
    : outcome Empty_set (list document * list message) :=
  match files with
  | [] => Returns (all_documents, messages)
  | file :: rest =>
      match (process_uploaded_file processor libs fuel file).2 with
      | Returns documents =>
          process_files processor fuel rest (all_documents ++ documents)
            (messages ++ [Processed (name file) (length documents)])
      | Raises e =>
          process_files processor fuel rest all_documents
            (messages ++ [ProcessingError (name file) e])
      | OutOfFuel => OutOfFuel
      end
  end.

(** The records of a file that was processed without an error. *)
Definition documents_of (processor : t) (fuel : nat) (file : UploadedFile)
    : option (list document) :=
  match (process_uploaded_file processor libs fuel file).2 with
  | Returns documents => Some documents
  | _ => None
  end.

(** Lines 224-253: [process_documents]. *)
Definition process_documents (fuel : nat) (uploaded_files : list UploadedFile)
    (chunk_size chunk_overlap : Z) (s : session)
    : outcome Empty_set (list message * session) :=
  match get_encoding with
  | None => Returns ([Crashed], s)
  | Some enc =>
      let processor :=
        {| DocumentProcessor.chunk_size := chunk_size;
           DocumentProcessor.chunk_overlap := chunk_overlap;
           encoding := enc |} in
      match process_files processor fuel uploaded_files [] [] with
      | Returns (all_documents, messages) =>
          if truthy all_documents then
            let '(success, rag') :=
              add_documents md5_hexdigest policy all_documents (rag s) in
            if success
            then Returns (messages ++ [Added (length all_documents)],
                          {| rag := rag'; documents_loaded := true;
                             chat_history := chat_history s |})
            else Returns (messages ++ [AddFailed],
                          {| rag := rag';
                             documents_loaded := documents_loaded s;
                             chat_history := chat_history s |})
          else Returns (messages ++ [NothingProcessed], s)
      | Raises e => match e with end
      | OutOfFuel => OutOfFuel
      end
  end.

(** Lines 272-296: what [chat_interface] does with a query. *)
Definition chat_query (query selected_model : str) (s : session)
    : list message * session :=
  if negb (truthy query) then ([], s)
  else
    let history := chat_history s ++ [(User, query)] in
    let '(relevant_docs, rag1) :=
      search_documents collection_query query 5 (rag s) in
    if truthy relevant_docs then
      let '(response, rag2) :=
        generate_response ollama_generate query
          (map as_context relevant_docs) selected_model rag1 in
      ([], {| rag := rag2; documents_loaded := documents_loaded s;
              chat_history := history ++ [(Assistant, response)] |})
    else
      ([NoRelevantDocuments],
       {| rag := rag1; documents_loaded := documents_loaded s;
          chat_history := history |}).

End App.

End App.


(** * Properties *)

(** ** Facts about the Python primitives *)

Module PyFacts.
Import Py.

Lemma lstrip_nil s : lstrip s = [] <-> blank s.
Proof.
  unfold blank. induction s as [|c s IH]; simpl.
  - split; [constructor | done].
  - destruct (isspace c) eqn:Hc.
    + rewrite IH. split; [by constructor | by inversion 1].
    + split; [done | inversion 1; congruence].
Qed.

Lemma lstrip_head s c r : lstrip s = c :: r -> isspace c = false.
Proof.
  induction s as [|d s IH]; simpl; [done|].
  destruct (isspace d) eqn:Hd; [done | congruence].
Qed.

Lemma lstrip_suffix s : exists w, s = w ++ lstrip s /\ blank w.
Proof.
  induction s as [|c s [w [Hw Hb]]]; simpl.
  - exists []. split; [done | constructor].
  - destruct (isspace c) eqn:Hc.
    + exists (c :: w). split; [simpl; congruence | by constructor].
    + exists []. split; [done | constructor].
Qed.

Lemma blank_app a b : blank (a ++ b) <-> blank a /\ blank b.
Proof. apply Forall_app. Qed.

Lemma blank_rev s : blank (rev s) <-> blank s.
Proof.
  unfold blank. split; intros H.
  - rewrite <- (rev_involutive s). by apply Forall_rev.
  - by apply Forall_rev.
Qed.

Lemma lstrip_blank_iff s : blank (lstrip s) <-> blank s.
Proof.
  destruct (lstrip_suffix s) as [w [Hw Hb]]. split.
  - intros H. rewrite Hw. by apply blank_app.
  - intros H. rewrite Hw in H. by apply blank_app in H as [_ ?].
Qed.

Lemma strip_nil s : strip s = [] <-> blank s.
Proof.
  unfold strip, rstrip.
  rewrite <- (lstrip_blank_iff s), <- (blank_rev (lstrip s)), <- lstrip_nil.
  split; intros H.
  - by apply (f_equal (@rev ascii)) in H; rewrite rev_involutive in H.
  - by rewrite H.
Qed.

Lemma truthy_false {A} (l : list A) : truthy l = false <-> l = [].
Proof. by destruct l. Qed.

Lemma truthy_true {A} (l : list A) : truthy l = true <-> l <> [].
Proof. by destruct l. Qed.

Lemma truthy_strip_false s : truthy (strip s) = false <-> blank s.
Proof. by rewrite truthy_false, strip_nil. Qed.

(** What [strip] leaves, if anything, has a character that is not
    whitespace. *)
Lemma strip_not_blank s : strip s <> [] -> ~ blank (strip s).
Proof.
  unfold strip, rstrip. intros Hne Hb.
  destruct (lstrip (rev (lstrip s))) as [|c r] eqn:E; [done|].
  apply lstrip_head in E. apply (proj1 (blank_rev (c :: r))) in Hb.
  inversion Hb; congruence.
Qed.

Lemma strip_strip_nonempty s : strip s <> [] -> strip (strip s) <> [].
Proof. intros H. rewrite strip_nil. by apply strip_not_blank. Qed.

(** *** Slices *)

Lemma len_nonneg {A} (l : list A) : 0 <= len l.
Proof. unfold len. lia. Qed.

Lemma slice_take_drop {A} (l : list A) a b :
  0 <= a -> 0 <= b ->
  slice l a b = take (Z.to_nat (b - a)) (drop (Z.to_nat a) l).
Proof.
  intros Ha Hb. unfold slice, slice_bound.
  destruct (Z.ltb_spec a 0), (Z.ltb_spec b 0); try lia.
  pose proof (len_nonneg l) as Hn. unfold len in *.
  destruct (Z.le_gt_cases a (Z.of_nat (length l))) as [Hal|Hal].
  - rewrite (Z.min_l a) by lia.
    destruct (Z.le_gt_cases b (Z.of_nat (length l))) as [Hbl|Hbl].
    + by rewrite (Z.min_l b) by lia.
    + rewrite (Z.min_r b) by lia.
      rewrite !take_ge; [done | rewrite length_drop; lia..].
  - rewrite !drop_ge by lia. by rewrite !take_nil.
Qed.

Lemma slice_all {A} (l : list A) b : len l <= b -> slice l 0 b = l.
Proof.
  intros Hb. pose proof (len_nonneg l).
  rewrite slice_take_drop by lia. simpl.
  rewrite drop_0. apply take_ge. unfold len in *. lia.
Qed.

Lemma slice_init {A} (l : list A) x : slice (l ++ [x]) 0 (-1) = l.
Proof.
  unfold slice, slice_bound, len. simpl.
  rewrite length_app. simpl.
  rewrite Z.min_l by lia.
  replace (Z.to_nat (Z.max 0 (-1 + Z.of_nat (length l + 1)) - 0))
    with (length l) by lia.
  simpl. rewrite drop_0. by rewrite take_app_length.
Qed.

Lemma slice_length_window {A} (l : list A) a n :
  0 <= a -> 0 <= n -> a + n <= len l -> len (slice l a (a + n)) = n.
Proof.
  intros Ha Hn Hl. rewrite slice_take_drop by lia.
  unfold len in *. rewrite length_take, length_drop. lia.
Qed.

(** *** Splitting and joining *)

Lemma split_not_nil sep s : split sep s <> [].
Proof.
  destruct s as [|c s]; simpl; [done|].
  destruct (Ascii.eqb c sep); [done|]. by destruct (split sep s).
Qed.

(** The pieces of [split]: all but the last, and the last. The text is the
    pieces with a separator after each but the last, and no piece holds
    the separator. *)
Lemma split_spec sep s :
  exists init lst,
    split sep s = init ++ [lst]
    /\ s = flat_map (fun p => p ++ [sep]) init ++ lst
    /\ Forall (fun p => sep ∉ p) (init ++ [lst])
    /\ (init = [] <-> sep ∉ s).
Proof.
  induction s as [|c s (init & lst & Hs & Htxt & Hno & Hiff)]; simpl.
  - exists [], []. split_and!; [done | done | | ].
    + repeat constructor. by intros ?%elem_of_nil.
    + split; [by intros _ ?%elem_of_nil | done].
  - destruct (Ascii.eqb_spec c sep) as [->|Hne].
    + exists ([] :: init), lst. rewrite Hs. split_and!; [done | | | ].
      * simpl. by rewrite <- Htxt.
      * constructor; [by intros ?%elem_of_nil | done].
      * split; [done | intros Hn; exfalso; apply Hn; by left].
    + rewrite Hs. destruct init as [|p init]; simpl in *.
      * exists [], (c :: lst). split_and!; [done | | | ].
        -- simpl. by rewrite Htxt.
        -- repeat constructor. inversion Hno; subst.
           intros [?|?]%elem_of_cons; [congruence | done].
        -- split; [|done]. intros _. apply not_elem_of_cons.
           split; [congruence | by apply Hiff].
      * exists ((c :: p) :: init), lst. split_and!; [done | | | ].
        -- simpl. by rewrite Htxt.
        -- inversion Hno; subst. constructor; [|done].
           intros [?|?]%elem_of_cons; [congruence | done].
        -- split; [done|]. intros Hn. exfalso. apply Hn. right. rewrite Htxt.
           apply elem_of_app. left. apply elem_of_app. left.
           apply elem_of_app. right. by left.
Qed.

Lemma join_flat_map sep (pieces : list str) :
  pieces <> [] ->
  join [sep] pieces ++ [sep] = flat_map (fun p => p ++ [sep]) pieces.
Proof.
  induction pieces as [|p [|q rest] IH]; intros Hne; [done| |].
  - simpl. by rewrite app_nil_r.
  - change (join [sep] (p :: q :: rest))
      with (p ++ [sep] ++ join [sep] (q :: rest)).
    change (flat_map (fun p => p ++ [sep]) (p :: q :: rest))
      with ((p ++ [sep]) ++ flat_map (fun p => p ++ [sep]) (q :: rest)).
    rewrite <- IH by done. by rewrite <- !app_assoc.
Qed.

Lemma split_length_gt1 sep s : (1 <? len (split sep s)) = true <-> sep ∈ s.
Proof.
  destruct (split_spec sep s) as (init & lst & Hs & _ & _ & Hiff).
  rewrite Hs. unfold len. rewrite length_app. simpl.
  rewrite Z.ltb_lt. split.
  - intros Hlen. destruct (decide (sep ∈ s)) as [|Hn]; [done|].
    apply Hiff in Hn. subst. simpl in Hlen. lia.
  - intros Hin. destruct init; [|simpl; lia].
    exfalso. by apply (proj1 Hiff).
Qed.

End PyFacts.

(** ** The chunker *)

Module ChunkerFacts.
Import Py PyFacts DocumentProcessor.

Lemma keep_well_trimmed w : well_trimmed (keep w).
Proof.
  unfold keep, well_trimmed. destruct (truthy (strip w)) eqn:E; [|constructor].
  repeat constructor. apply strip_strip_nonempty. by apply truthy_true.
Qed.

Lemma keep_nil w : keep w = [] <-> blank w.
Proof.
  unfold keep. rewrite <- truthy_strip_false.
  by destruct (truthy (strip w)).
Qed.

Lemma flat_map_keep_well_trimmed ws : well_trimmed (flat_map keep ws).
Proof.
  unfold well_trimmed. induction ws as [|w ws IH]; simpl; [constructor|].
  apply Forall_app. split; [apply keep_well_trimmed | done].
Qed.

Lemma flat_map_keep_nil ws : flat_map keep ws = [] <-> Forall blank ws.
Proof.
  induction ws as [|w ws IH]; simpl.
  - split; [constructor | done].
  - split.
    + intros [Hw Hws]%app_eq_nil. constructor; [by apply keep_nil | by apply IH].
    + inversion 1 as [|? ? Hw Hws]; subst.
      apply keep_nil in Hw. apply IH in Hws. by rewrite Hw, Hws.
Qed.

(** *** The character fallback *)

Section CharLoop.
Variable self : t.
Hypothesis Hvalid : 0 <= chunk_overlap self < chunk_size self.
Variable text : str.

Let size := chunk_size self * 4.
Let step := chunk_size self * 4 - chunk_overlap self * 4.

(** How many windows start in [start .. len text). *)
Let rounds (start : Z) : nat :=
  Z.to_nat ((len text - start + step - 1) / step).

Lemma rounds_done start : len text <= start -> rounds start = 0%nat.
Proof.
  intros H. unfold rounds.
  assert ((len text - start + step - 1) / step < 1); [|lia].
  apply Z.div_lt_upper_bound; subst step; lia.
Qed.

Lemma rounds_more start :
  start < len text -> rounds start = S (rounds (start + step)).
Proof.
  intros H. unfold rounds.
  replace (len text - start + step - 1)
    with ((len text - start - 1) + 1 * step) by lia.
  rewrite Z.div_add by (subst step; lia).
  replace (len text - (start + step) + step - 1)
    with (len text - start - 1) by lia.
  assert (0 <= (len text - start - 1) / step); [|lia].
  apply Z.div_pos; subst step; lia.
Qed.

(** The loop puts out the windows in order, each trimmed, the empty ones
    left out. *)
Lemma char_loop_windows fuel start chunks :
  0 <= start ->
  (rounds start < fuel)%nat ->
  char_loop self fuel text start chunks
  = Returns (chunks
             ++ flat_map keep (windows_from text size step (rounds start) start)).
Proof.
  revert start chunks.
  induction fuel as [|fuel IH]; intros start chunks Hstart Hfuel; [lia|].
  simpl. destruct (Z.ltb_spec start (len text)) as [Hlt|Hge].
  - rewrite rounds_more in * by done.
    replace (if start + chunk_size self * 4 - chunk_overlap self * 4
                  >=? start + chunk_size self * 4
             then start + chunk_size self * 4
             else start + chunk_size self * 4 - chunk_overlap self * 4)
      with (start + step).
    2:{ destruct (Z.geb_spec (start + chunk_size self * 4
                              - chunk_overlap self * 4)
                             (start + chunk_size self * 4));
        subst step; lia. }
    rewrite IH by (subst step; lia).
    simpl. fold size. unfold keep at 2.
    destruct (truthy (strip (slice text start (start + size))));
      by rewrite <- ?app_assoc, ?app_nil_r.
  - rewrite rounds_done by done. simpl. by rewrite app_nil_r.
Qed.

(** Windows that are all blank leave nothing but whitespace from [start]
    on. *)
Lemma windows_cover start :
  0 <= start ->
  Forall blank (windows_from text size step (rounds start) start) ->
  blank (drop (Z.to_nat start) text).
Proof.
  remember (rounds start) as n eqn:Hn. revert start Hn.
  induction n as [|n IH]; intros start Hn Hstart Hall.
  - destruct (Z.lt_ge_cases start (len text)) as [Hlt|Hge].
    + rewrite rounds_more in Hn by done. done.
    + rewrite drop_ge by (unfold len in *; lia). constructor.
  - destruct (Z.lt_ge_cases start (len text)) as [Hlt|Hge].
    2:{ rewrite rounds_done in Hn by done. done. }
    rewrite rounds_more in Hn by done.
    simpl in Hall. inversion Hall as [|w ws Hw Hws]; subst.
    apply IH in Hws; [|lia | subst step; lia].
    rewrite slice_take_drop in Hw by (subst size; lia).
    replace (start + size - start) with size in Hw by lia.
    rewrite <- (take_drop (Z.to_nat step) (drop (Z.to_nat start) text)).
    apply blank_app. split.
    + rewrite <- (take_drop (Z.to_nat step)
                    (take (Z.to_nat size) (drop (Z.to_nat start) text))) in Hw.
      apply blank_app in Hw as [Hw _].
      rewrite take_take in Hw.
      by replace (Z.to_nat step `min` Z.to_nat size)%nat
        with (Z.to_nat step) in Hw by (subst step size; lia).
    + rewrite drop_drop.
      by replace (Z.to_nat start + Z.to_nat step)%nat
        with (Z.to_nat (start + step)) by (subst step; lia).
Qed.

Lemma simple_text_split_returns :
  returns (fun fuel => _simple_text_split self fuel text)
          (flat_map keep (char_windows (chunk_size self) (chunk_overlap self) text)).
Proof.
  exists (S (rounds 0)). intros fuel Hfuel.
  unfold _simple_text_split. rewrite char_loop_windows by lia.
  unfold char_windows, rounds. fold size. fold step.
  by replace (len text - 0 + step - 1) with (len text + step - 1) by lia.
Qed.

Lemma char_windows_cover :
  ~ blank text ->
  flat_map keep (char_windows (chunk_size self) (chunk_overlap self) text) <> [].
Proof.
  intros Hnb Hnil. apply Hnb.
  apply flat_map_keep_nil in Hnil.
  rewrite <- (drop_0 text). apply (windows_cover 0); [lia|].
  unfold rounds. unfold char_windows in Hnil.
  replace (len text - 0 + step - 1) with (len text + step - 1) by lia.
  exact Hnil.
Qed.

End CharLoop.

(** *** The token loop *)

Section TokenLoopSteps.
Variable self : t.

Lemma next_start_overlap end_ :
  0 <= chunk_overlap self -> next_start self end_ = end_ - chunk_overlap self.
Proof.
  intros H. unfold next_start.
  destruct (Z.geb_spec (end_ - chunk_overlap self) end_); lia.
Qed.

Lemma token_loop_exit fuel tokens start chunks :
  len tokens <= start ->
  token_loop self (S fuel) tokens start chunks = Returns chunks.
Proof. intros H. simpl. by destruct (Z.ltb_spec start (len tokens)); [lia|]. Qed.

Lemma token_loop_step fuel tokens start chunks end_ chunk_text :
  start < len tokens ->
  window_end self tokens start = Some end_ ->
  decode (encoding self) (slice tokens start end_) = Some chunk_text ->
  token_loop self (S fuel) tokens start chunks
  = token_loop self fuel tokens (next_start self end_) (chunks ++ keep chunk_text).
Proof.
  intros H Hw Hd. simpl.
  destruct (Z.ltb_spec start (len tokens)); [|lia].
  rewrite Hw, Hd. unfold keep.
  destruct (truthy (strip chunk_text)); by rewrite ?app_nil_r.
Qed.

(** A window whose successor starts where it started is met again and
    again: the loop does not come back. *)
Lemma token_loop_stuck tokens start end_ chunk_text :
  start < len tokens ->
  window_end self tokens start = Some end_ ->
  decode (encoding self) (slice tokens start end_) = Some chunk_text ->
  next_start self end_ = start ->
  forall fuel chunks, token_loop self fuel tokens start chunks = OutOfFuel.
Proof.
  intros H Hw Hd Hn fuel. induction fuel as [|fuel IH]; intros chunks; [done|].
  rewrite (token_loop_step _ _ _ _ _ _ H Hw Hd), Hn. apply IH.
Qed.

(** More fuel does not change what a run came back with. *)
Lemma token_loop_mono fuel fuel' tokens start chunks :
  (fuel <= fuel')%nat ->
  token_loop self fuel tokens start chunks <> OutOfFuel ->
  token_loop self fuel' tokens start chunks
  = token_loop self fuel tokens start chunks.
Proof.
  revert fuel' start chunks.
  induction fuel as [|fuel IH]; intros fuel' start chunks Hle Hne; [done|].
  destruct fuel' as [|fuel']; [lia|].
  simpl in *. destruct (start <? len tokens); [|done].
  destruct (window_end self tokens start) as [end_|]; [|done].
  destruct (decode (encoding self) (slice tokens start end_)); [|done].
  apply IH; [lia | done].
Qed.

End TokenLoopSteps.

Section TokenLoop.
Variable self : t.
Hypothesis Hvalid : 0 <= chunk_overlap self < chunk_size self.
Hypothesis Hlaw : lawful (encoding self).
Variable tokens : list token.
Hypothesis Hadv : advancing self tokens.
Variable text : str.
Hypothesis Hdec : decode (encoding self) tokens = Some text.

Lemma decode_parts a b txt :
  decode (encoding self) (a ++ b) = Some txt ->
  exists ta tb,
    decode (encoding self) a = Some ta
    /\ decode (encoding self) b = Some tb /\ txt = ta ++ tb.
Proof.
  rewrite (decode_app _ Hlaw). intros H.
  destruct (decode (encoding self) a) as [ta|]; [|done].
  destruct (decode (encoding self) b) as [tb|]; [|done].
  simpl in H. exists ta, tb. by inversion H.
Qed.

Lemma decode_nil txt : decode (encoding self) [] = Some txt -> txt = [].
Proof.
  intros H. destruct (decode_parts [] [] txt H) as (ta & tb & Ha & Hb & Heq).
  rewrite H in Ha, Hb. injection Ha as <-. injection Hb as <-.
  apply (f_equal length) in Heq. rewrite length_app in Heq.
  destruct txt; [done | simpl in Heq; lia].
Qed.

Lemma decode_drop n : exists txt, decode (encoding self) (drop n tokens) = Some txt.
Proof.
  pose proof Hdec as H. rewrite <- (take_drop n tokens) in H.
  apply decode_parts in H as (? & tb & _ & Hb & _). eauto.
Qed.

(** What is left of the tokens from [n] on reads as something that is
    not blank. *)
Let pending (n : Z) : Prop :=
  forall txt, decode (encoding self) (drop (Z.to_nat n) tokens) = Some txt ->
              ~ blank txt.

Lemma pending_next start end_ chunk_text start' :
  0 <= start -> start < start' <= end_ ->
  decode (encoding self) (slice tokens start end_) = Some chunk_text ->
  blank chunk_text ->
  pending start -> pending start'.
Proof.
  intros Hs Hs' Hd Hb Hp txt' Hd'.
  rewrite slice_take_drop in Hd by lia.
  destruct (decode_drop (Z.to_nat start)) as [txt Htxt].
  specialize (Hp txt Htxt).
  rewrite <- (take_drop (Z.to_nat (end_ - start))
                (drop (Z.to_nat start) tokens)) in Htxt.
  apply decode_parts in Htxt as (ta & tb & Ha & Hb' & ->).
  rewrite Hd in Ha. inversion Ha; subst ta.
  rewrite drop_drop in Hb'.
  rewrite <- (take_drop (Z.to_nat (end_ - start'))
                (drop (Z.to_nat start') tokens)) in Hd'.
  apply decode_parts in Hd' as (ta' & tb' & _ & Hb'' & ->).
  rewrite drop_drop in Hb''.
  replace (Z.to_nat start' + Z.to_nat (end_ - start'))%nat
    with (Z.to_nat start + Z.to_nat (end_ - start))%nat in Hb'' by lia.
  rewrite Hb' in Hb''. inversion Hb''; subst tb'.
  intros [_ Hblank]%blank_app. apply Hp. by apply blank_app.
Qed.

(** With every window advancing, the loop comes back or raises within as
    many rounds as there are tokens left; what it returns is well trimmed
    and not empty if something that is not blank was left to read. *)
Lemma token_loop_advancing fuel start chunks :
  0 <= start ->
  (Z.to_nat (len tokens - start) < fuel)%nat ->
  match token_loop self fuel tokens start chunks with
  | Returns chunks' =>
      (well_trimmed chunks -> well_trimmed chunks')
      /\ (chunks <> [] \/ pending start -> chunks' <> [])
  | Raises _ => True
  | OutOfFuel => False
  end.
Proof.
  revert start chunks.
  induction fuel as [|fuel IH]; intros start chunks Hs Hfuel; [lia|].
  destruct (Z.lt_ge_cases start (len tokens)) as [Hlt|Hge].
  - simpl. destruct (Z.ltb_spec start (len tokens)); [|lia].
    destruct (window_end self tokens start) as [end_|] eqn:Hw; [|done].
    destruct (decode (encoding self) (slice tokens start end_))
      as [chunk_text|] eqn:Hd; [|done].
    pose proof (Hadv start end_ (conj Hs Hlt) Hw) as Hgt.
    rewrite next_start_overlap by lia.
    specialize (IH (end_ - chunk_overlap self)
      (if truthy (strip chunk_text)
       then chunks ++ [strip chunk_text] else chunks)).
    destruct (token_loop self fuel tokens (end_ - chunk_overlap self) _)
      as [chunks'| |]; [|done|apply IH; lia].
    destruct IH as [IHw IHn]; [lia | lia |].
    destruct (truthy (strip chunk_text)) eqn:Ht.
    + split.
      * intros Hwt. apply IHw. apply Forall_app. split; [done|].
        repeat constructor. apply strip_strip_nonempty. by apply truthy_true.
      * intros _. apply IHn. left. by destruct chunks.
    + split; [done|]. intros [Hne|Hp]; apply IHn; [by left|right].
      apply (pending_next start end_ chunk_text); [lia | lia | done | | done].
      by apply truthy_strip_false.
  - rewrite token_loop_exit by done. split; [done|].
    intros [Hne|Hp]; [done|]. exfalso.
    destruct (decode_drop (Z.to_nat start)) as [txt Htxt].
    apply (Hp txt Htxt).
    rewrite drop_ge in Htxt by (unfold len in *; lia).
    apply decode_nil in Htxt. subst. constructor.
Qed.

End TokenLoop.

(** *** Whole calls *)

Section Calls.
Variable self : t.

Lemma token_loop_well_trimmed tokens fuel start chunks chunks' :
  well_trimmed chunks ->
  token_loop self fuel tokens start chunks = Returns chunks' ->
  well_trimmed chunks'.
Proof.
  revert start chunks.
  induction fuel as [|fuel IH]; intros start chunks Hwt; simpl; [done|].
  destruct (start <? len tokens); [|by intros [= <-]].
  destruct (window_end self tokens start) as [end_|]; [|done].
  destruct (decode (encoding self) (slice tokens start end_)) as [ct|]; [|done].
  apply IH. destruct (truthy (strip ct)) eqn:Ht; [|done].
  apply Forall_app. split; [done|]. repeat constructor.
  apply strip_strip_nonempty. by apply truthy_true.
Qed.

Lemma char_loop_well_trimmed text fuel start chunks chunks' :
  well_trimmed chunks ->
  char_loop self fuel text start chunks = Returns chunks' ->
  well_trimmed chunks'.
Proof.
  revert start chunks.
  induction fuel as [|fuel IH]; intros start chunks Hwt; simpl; [done|].
  destruct (start <? len text); [|by intros [= <-]].
  apply IH.
  destruct (truthy (strip (slice text start (start + chunk_size self * 4))))
    eqn:Ht; [|done].
  apply Forall_app. split; [done|]. repeat constructor.
  apply strip_strip_nonempty. by apply truthy_true.
Qed.

Lemma split_well_trimmed text fuel chunks :
  _split_text_into_chunks self fuel text = Returns chunks ->
  well_trimmed chunks.
Proof.
  unfold _split_text_into_chunks, _simple_text_split.
  destruct (encode (encoding self) text) as [tokens|].
  - destruct (token_loop self fuel tokens 0 []) as [chunks'| |] eqn:E; [| |done].
    + intros [= <-]. eapply token_loop_well_trimmed; [|exact E]. constructor.
    + apply char_loop_well_trimmed. constructor.
  - apply char_loop_well_trimmed. constructor.
Qed.

(** A text whose tokens all fit before the second window's start is one
    chunk, or none if it is blank. *)
Lemma split_single_window text tokens fuel :
  encode (encoding self) text = Some tokens ->
  decode (encoding self) tokens = Some text ->
  0 <= chunk_overlap self ->
  0 < len tokens <= chunk_size self - chunk_overlap self ->
  (2 <= fuel)%nat ->
  _split_text_into_chunks self fuel text = Returns (keep text).
Proof.
  intros He Hd Ho Hlen Hfuel. unfold _split_text_into_chunks. rewrite He.
  destruct fuel as [|[|fuel]]; [lia | lia |].
  assert (window_end self tokens 0 = Some (chunk_size self)) as Hw.
  { unfold window_end. rewrite Z.add_0_l.
    destruct (Z.ltb_spec (chunk_size self) (len tokens)); [lia | done]. }
  rewrite (token_loop_step self _ tokens 0 [] (chunk_size self) text);
    [| lia | done | by rewrite slice_all by lia].
  rewrite next_start_overlap by done.
  by rewrite token_loop_exit by lia.
Qed.

(** The loop that meets a stuck window right after the first one. *)
Lemma split_stuck_second_window text tokens end0 text0 end1 text1 :
  encode (encoding self) text = Some tokens ->
  0 < len tokens ->
  window_end self tokens 0 = Some end0 ->
  decode (encoding self) (slice tokens 0 end0) = Some text0 ->
  next_start self end0 < len tokens ->
  window_end self tokens (next_start self end0) = Some end1 ->
  decode (encoding self) (slice tokens (next_start self end0) end1)
  = Some text1 ->
  next_start self end1 = next_start self end0 ->
  diverges (fun fuel => _split_text_into_chunks self fuel text).
Proof.
  intros He Hlen Hw0 Hd0 Hlt Hw1 Hd1 Hsame fuel.
  unfold _split_text_into_chunks. rewrite He.
  destruct fuel as [|fuel]; [done|].
  rewrite (token_loop_step self _ tokens 0 [] end0 text0) by done.
  by rewrite (token_loop_stuck self tokens _ end1 text1).
Qed.

End Calls.

Lemma char_encoding_lawful : lawful char_encoding.
Proof.
  split.
  - intros s tokens [= <-]. simpl. f_equal.
    rewrite map_map. rewrite <- (map_id s) at 2.
    apply map_ext. intros c. apply ascii_N_embedding.
  - intros a b. simpl. by rewrite map_app.
Qed.

(** *** The chunking contract *)

(** C1, as stated, fails: the text of one space is not empty, and with
    S = 1000 and O = 200 the chunker comes back with no chunk at all. *)
Lemma blank_text_yields_no_chunk :
  let self := char_processor 1000 200 in
  let text := lit " " in
  text <> []
  /\ 0 <= chunk_overlap self < chunk_size self
  /\ returns (fun fuel => _split_text_into_chunks self fuel text) [].
Proof.
  split_and!; [done | done | done |].
  exists 2%nat. intros fuel Hfuel.
  by rewrite (split_single_window _ (lit " ") (map code (lit " "))).
Qed.

(** C1 (amended). Whatever the text, the chunk size and the overlap, every
    chunk of a list that the token-based chunking operation returns is not
    empty after trimming. For a text with a character that is not
    whitespace, 0 <= O < S, and a tokenizer that decodes what it encoded
    token by token: if every window ends more than O tokens past its start,
    the operation terminates and returns at least one chunk. *)
Theorem chunking_returns_trimmed_chunks self text :
  (forall fuel chunks,
      _split_text_into_chunks self fuel text = Returns chunks ->
      well_trimmed chunks)
  /\ (lawful (encoding self) ->
      0 <= chunk_overlap self < chunk_size self ->
      ~ blank text ->
      (forall tokens,
          encode (encoding self) text = Some tokens -> advancing self tokens) ->
      exists chunks,
        returns (fun fuel => _split_text_into_chunks self fuel text) chunks
        /\ chunks <> []
        /\ well_trimmed chunks).
Proof.
  split; [intros fuel chunks; apply split_well_trimmed|].
  intros Hlaw Hvalid Hnb Hadv.
  destruct (simple_text_split_returns self Hvalid text) as [fuel1 Hfallback].
  pose proof (char_windows_cover self Hvalid text Hnb) as Hcover.
  pose proof (flat_map_keep_well_trimmed
                (char_windows (chunk_size self) (chunk_overlap self) text))
    as Htrim.
  destruct (encode (encoding self) text) as [tokens|] eqn:He.
  2:{ eexists. split_and!; [|exact Hcover|exact Htrim].
      exists fuel1. intros fuel Hfuel.
      unfold _split_text_into_chunks. rewrite He. by apply Hfallback. }
  pose proof (decode_encode _ Hlaw _ _ He) as Hdec.
  set (fuel0 := S (Z.to_nat (len tokens))).
  pose proof (token_loop_advancing self Hvalid Hlaw tokens (Hadv tokens eq_refl)
                text Hdec fuel0 0 [] ltac:(lia) ltac:(subst fuel0; lia)) as H.
  destruct (token_loop self fuel0 tokens 0 []) as [chunks|[]|] eqn:E; [| |done].
  - destruct H as [Hwt Hne]. exists chunks. split_and!.
    + exists fuel0. intros fuel Hfuel. unfold _split_text_into_chunks.
      rewrite He, (token_loop_mono self fuel0 fuel); [|lia|by rewrite E].
      by rewrite E.
    + apply Hne. right. intros txt. rewrite drop_0, Hdec. by intros [= <-].
    + apply Hwt. constructor.
  - eexists. split_and!; [|exact Hcover|exact Htrim].
    exists (fuel0 `max` fuel1)%nat. intros fuel Hfuel.
    unfold _split_text_into_chunks.
    rewrite He, (token_loop_mono self fuel0 fuel); [|lia|by rewrite E].
    rewrite E. apply Hfallback. lia.
Qed.

Lemma sentences_text_advancing :
  advancing (char_processor 4 1) (map code (lit "ab.cd.ef.g")).
Proof.
  intros start end_ [H0 H1] Hw. change (len _) with 10 in H1.
  assert (start = 0 \/ start = 1 \/ start = 2 \/ start = 3 \/ start = 4
          \/ start = 5 \/ start = 6 \/ start = 7 \/ start = 8 \/ start = 9)
    as Hcases by lia.
  destruct_or! Hcases; subst start; vm_compute in Hw;
    injection Hw as <-; done.
Qed.

Lemma chunking_returns_trimmed_chunks_witness :
  exists chunks,
    returns (fun fuel =>
               _split_text_into_chunks (char_processor 4 1) fuel
                 (lit "ab.cd.ef.g")) chunks
    /\ chunks <> []
    /\ well_trimmed chunks.
Proof.
  apply (proj2 (chunking_returns_trimmed_chunks (char_processor 4 1)
                  (lit "ab.cd.ef.g"))).
  - exact char_encoding_lawful.
  - simpl. lia.
  - intros H. apply Forall_inv in H. vm_compute in H. discriminate.
  - intros tokens [= <-]. exact sentences_text_advancing.
Defined.

(** *** Forward progress *)

(** The loop on four-token windows with an overlap of two: the window after
    ["ab."] starts at 1, is cut back to ["b."], and starts at 1 again. *)
Example short_text_stalls :
  diverges (fun fuel =>
              _split_text_into_chunks (char_processor 4 2) fuel
                (lit "ab.cdefgh")).
Proof.
  eapply split_stuck_second_window; vm_compute; reflexivity.
Qed.

(** C2, on the code: with S = 1000 and O = 200, on a sentence of 900
    tokens followed by 2000 tokens with no full stop, the first chunk ends
    at token 901 and the next window starts at 701. That window is cut back
    to the same full stop, so it ends at 901 again, and the next start,
    901 - 200, is 701 once more: it is not past the previous start, and it
    is not forced to 901. The loop never comes back. *)
Theorem progress_guard_misses_stalled_window :
  let self := char_processor 1000 200 in
  let tokens := map code long_sentence_text in
  0 <= chunk_overlap self < chunk_size self
  /\ encode (encoding self) long_sentence_text = Some tokens
  /\ window_end self tokens 0 = Some 901
  /\ next_start self 901 = 701
  /\ window_end self tokens 701 = Some 901
  /\ diverges (fun fuel => _split_text_into_chunks self fuel long_sentence_text).
Proof.
  split_and!; [done | done | done | by vm_compute | done | by vm_compute |].
  eapply split_stuck_second_window; vm_compute; reflexivity.
Qed.

(** *** The character fallback *)

(** C6, as stated, fails: the tokenizer raises, the text of one space is
    not empty, and the fallback comes back with no chunk. *)
Lemma fallback_blank_text_yields_no_chunk :
  let self := {| chunk_size := 1000; chunk_overlap := 200;
                 encoding := failing_encoding |} in
  let text := lit " " in
  text <> []
  /\ encode (encoding self) text = None
  /\ forall fuel, (1 < fuel)%nat ->
       _split_text_into_chunks self fuel text = Returns [].
Proof.
  split_and!; [done | done |].
  intros [|[|fuel]] Hfuel; [lia | lia | reflexivity].
Qed.

(** C6 (amended). When the tokenizer raises, on the text or later in the
    loop, the chunker answers with the character split. For 0 <= O < S the
    character split terminates, it does not raise, and it returns the
    windows of S * 4 characters, each starting O * 4 characters before the
    end of the one before, trimmed, the empty ones left out. For a text
    with a character that is not whitespace that is at least one chunk, and
    no chunk is empty after trimming. *)
Theorem fallback_character_split self text :
  0 <= chunk_overlap self < chunk_size self ->
  let chunks :=
    flat_map keep (char_windows (chunk_size self) (chunk_overlap self) text) in
  (forall fuel,
      encode (encoding self) text = None
      \/ (exists tokens, encode (encoding self) text = Some tokens
                         /\ token_loop self fuel tokens 0 [] = Raises ()) ->
      _split_text_into_chunks self fuel text = _simple_text_split self fuel text)
  /\ returns (fun fuel => _simple_text_split self fuel text) chunks
  /\ (forall fuel e, _simple_text_split self fuel text <> Raises e)
  /\ well_trimmed chunks
  /\ (~ blank text -> chunks <> []).
Proof.
  intros Hvalid chunks. split_and!.
  - intros fuel [He|(tokens & He & Hr)]; unfold _split_text_into_chunks;
      rewrite He; [done | by rewrite Hr].
  - by apply simple_text_split_returns.
  - intros fuel [].
  - apply flat_map_keep_well_trimmed.
  - by apply char_windows_cover.
Qed.

Lemma fallback_character_split_witness :
  let self := {| chunk_size := 2; chunk_overlap := 1;
                 encoding := failing_encoding |} in
  let text := lit "hello world, hello" in
  returns (fun fuel => _simple_text_split self fuel text)
    (flat_map keep (char_windows 2 1 text))
  /\ flat_map keep (char_windows 2 1 text)
     = [lit "hello wo"; lit "o world,"; lit "rld, hel"; lit "hello"; lit "lo"].
Proof.
  split.
  - apply (fallback_character_split
             {| chunk_size := 2; chunk_overlap := 1;
                encoding := failing_encoding |} (lit "hello world, hello")).
    simpl. lia.
  - vm_compute. reflexivity.
Defined.

(** *** Sentence boundaries *)

(** C5. A window that is not the last one (its end is before the end of
    the tokens) is read as text and split at the full stops. With no full
    stop the window ends where it was to end, S tokens on. With a full stop
    the text is cut after its last one: what the fragments but the last,
    joined again and closed by a full stop, spell is the text up to that
    full stop, and the window ends as many tokens past its start as that
    text encodes to. *)
Theorem window_end_sentence_snap self tokens start text :
  start + chunk_size self < len tokens ->
  decode (encoding self) (slice tokens start (start + chunk_size self))
  = Some text ->
  (0 <= start -> 0 <= chunk_size self ->
   len (slice tokens start (start + chunk_size self)) = chunk_size self)
  /\ ("."%char ∉ text ->
      window_end self tokens start = Some (start + chunk_size self))
  /\ ("."%char ∈ text ->
      exists kept rest,
        text = kept ++ "."%char :: rest
        /\ ("."%char ∉ rest)
        /\ join (lit ".") (slice (split "." text) 0 (-1)) ++ lit "."
           = kept ++ ["."%char]
        /\ window_end self tokens start
           = (chunk_tokens ← encode (encoding self) (kept ++ ["."%char]);
              Some (start + len chunk_tokens))).
Proof.
  intros Hlast Hd. split_and!.
  - intros Hs HS. apply slice_length_window; lia.
  - intros Hno. unfold window_end.
    destruct (Z.ltb_spec (start + chunk_size self) (len tokens)); [|lia].
    rewrite Hd. simpl.
    destruct (1 <? len (split "." text)) eqn:E; [|done].
    by apply split_length_gt1 in E.
  - intros Hin.
    destruct (split_spec "." text) as (init & lst & Hs & Htxt & Hno & Hiff).
    assert (init <> []) as Hinit by (intros H; by apply Hiff in H).
    exists (join ["."%char] init), lst.
    assert (join (lit ".") (slice (split "." text) 0 (-1)) ++ lit "."
            = join ["."%char] init ++ ["."%char]) as Hkept.
    { by rewrite Hs, slice_init. }
    split_and!.
    + rewrite Htxt at 1. rewrite <- join_flat_map by done.
      by rewrite <- app_assoc.
    + apply Forall_app in Hno as [_ Hlst]. by apply Forall_inv in Hlst.
    + done.
    + unfold window_end.
      destruct (Z.ltb_spec (start + chunk_size self) (len tokens)); [|lia].
      rewrite Hd. simpl.
      apply split_length_gt1 in Hin. rewrite Hin.
      change (lit ".") with ["."%char] in Hkept. by rewrite Hkept.
Qed.

Lemma window_end_sentence_snap_witness :
  let self := char_processor 4 1 in
  let tokens := map code (lit "ab.cdefgh") in
  decode (encoding self) (slice tokens 0 4) = Some (lit "ab.c")
  /\ window_end self tokens 0 = Some 3
  /\ window_end self tokens 3 = Some 7.
Proof.
  pose proof (window_end_sentence_snap (char_processor 4 1)
                (map code (lit "ab.cdefgh")) 0 (lit "ab.c")
                ltac:(by vm_compute) eq_refl) as (_ & _ & Hsnap).
  pose proof (window_end_sentence_snap (char_processor 4 1)
                (map code (lit "ab.cdefgh")) 3 (lit "cdef")
                ltac:(by vm_compute) eq_refl) as (_ & Hkeep & _).
  split_and!; [done | | ].
  - destruct Hsnap as (kept & rest & _ & _ & Hkept & ->).
    + vm_compute. by do 2 right; left.
    + rewrite <- Hkept. by vm_compute.
  - apply Hkeep. vm_compute. intros H. by repeat (inversion H as [|? ? ? H']; clear H; rename H' into H).
Defined.

End ChunkerFacts.

(** ** The upload pipeline *)

Module PipelineFacts.
Import Py PyFacts DocumentProcessor ChunkerFacts.

(** C4. A txt file that decodes to ["hello world"], chunked with S = 1000
    and O = 200, is one chunk record, and its content is ["hello world"].
    The tokenizer either raises or turns the text into tokens, at least one
    and no more than it has characters, that decode to the text. *)
Theorem hello_world_is_one_chunk enc libs fuel file :
  let self := {| chunk_size := 1000; chunk_overlap := 200; encoding := enc |} in
  let hello := lit "hello world" in
  _get_file_type (name file) = inr (lit "txt") ->
  utf8_decode libs (file_bytes file) = Some hello ->
  encode enc hello = None
  \/ (exists tokens,
         encode enc hello = Some tokens
         /\ decode enc tokens = Some hello
         /\ (0 < length tokens <= length hello)%nat) ->
  (2 <= fuel)%nat ->
  process_uploaded_file self libs fuel file
  = ([Read; DecodeUtf8],
     Returns
       [{| content := Some hello;
           metadata := Some [ (lit "filename", VStr (name file));
                              (lit "file_type", VStr (lit "txt"));
                              (lit "chunk_index", VInt 0);
                              (lit "total_chunks", VInt 1) ] |}]).
Proof.
  intros self hello Htype Hutf8 Htok Hfuel.
  assert (_split_text_into_chunks self fuel hello = Returns [hello]) as Hsplit.
  { destruct Htok as [He|(tokens & He & Hd & Hlen)].
    - unfold _split_text_into_chunks. simpl. rewrite He.
      by destruct fuel as [|[|fuel]]; [lia | lia |].
    - rewrite (split_single_window self hello tokens); try done.
      change (length hello) with 11%nat in Hlen.
      unfold len. simpl. lia. }
  unfold process_uploaded_file. rewrite Htype.
  repeat (case_decide; [discriminate|]).
  case_decide; [|done]. rewrite Hutf8.
  change (negb (truthy (strip hello))) with false. cbv iota.
  fold hello. by rewrite Hsplit.
Qed.

Lemma hello_world_is_one_chunk_witness :
  let libs := {| pdf_pages := fun _ => None;
                 docx_document := fun _ => None;
                 utf8_decode := fun b => Some b |} in
  let file := {| name := lit "notes.txt";
                 file_bytes := lit "hello world" |} in
  (process_uploaded_file (char_processor 1000 200) libs 2 file).2
  = Returns
      [{| content := Some (lit "hello world");
          metadata := Some [ (lit "filename", VStr (lit "notes.txt"));
                             (lit "file_type", VStr (lit "txt"));
                             (lit "chunk_index", VInt 0);
                             (lit "total_chunks", VInt 1) ] |}].
Proof.
  intros libs file.
  assert (encode char_encoding (lit "hello world") = None
          \/ (exists tokens,
                 encode char_encoding (lit "hello world") = Some tokens
                 /\ decode char_encoding tokens = Some (lit "hello world")
                 /\ (0 < length tokens <= length (lit "hello world"))%nat))
    as Htok.
  { right. exists (map code (lit "hello world")).
    split_and!; [reflexivity | reflexivity | simpl; lia | simpl; lia]. }
  exact (f_equal snd
           (hello_world_is_one_chunk char_encoding libs 2 file
              eq_refl eq_refl Htok (le_n 2))).
Defined.

(** *** File types *)

Lemma lower_char_full_stop_eqb c :
  Ascii.eqb (lower_char c) "." = Ascii.eqb c ".".
Proof. by destruct c as [[] [] [] [] [] [] [] []]. Qed.

Lemma after_last_lower s :
  after_last "." (lower s) = lower <$> after_last "." s.
Proof.
  induction s as [|c s IH]; simpl; [done|].
  rewrite IH, lower_char_full_stop_eqb.
  destruct (after_last "." s); simpl; [done|].
  by destruct (Ascii.eqb c ".").
Qed.

Lemma split_after_last sep s :
  match after_last sep s with
  | None => split sep s = [s]
  | Some rest => exists init, split sep s = init ++ [rest] /\ init <> []
  end.
Proof.
  induction s as [|c s IH]; simpl; [done|].
  destruct (after_last sep s) as [rest|].
  - destruct IH as (init & -> & Hne).
    destruct (Ascii.eqb c sep).
    + by exists ([] :: init).
    + destruct init as [|p init]; [done|]. by exists ((c :: p) :: init).
  - rewrite IH. destruct (Ascii.eqb c sep); [|done].
    by exists [[]].
Qed.

(** The extension that line 63 computes is the lower-cased text after the
    last full stop of the name, and the whole name in lower case when it
    has no full stop. *)
Lemma file_extension_spec filename :
  file_extension filename
  = lower (default filename (spec_extension filename)).
Proof.
  unfold file_extension, spec_extension, last_item.
  pose proof (split_after_last "." (lower filename)) as H.
  rewrite after_last_lower in H.
  destruct (after_last "." filename) as [rest|]; simpl in *.
  - destruct H as (init & -> & _). by rewrite last_snoc.
  - by rewrite H.
Qed.

Lemma get_file_type_kinds filename file_type :
  _get_file_type filename = inr file_type ->
  file_type ∈ [lit "pdf"; lit "docx"; lit "txt"].
Proof.
  unfold _get_file_type.
  repeat case_decide; intros Heq;
    (discriminate || (injection Heq as <-; set_solver)).
Qed.

(** A file of a known type is handed to one extractor or to the decoder. *)
Lemma known_type_is_extracted self libs fuel file file_type :
  _get_file_type (name file) = inr file_type ->
  exists e, (process_uploaded_file self libs fuel file).1 = [Read; e].
Proof.
  intros Htype. pose proof (get_file_type_kinds _ _ Htype) as Hkind.
  unfold process_uploaded_file. rewrite Htype.
  destruct (if decide (file_type = lit "pdf") then _ else _)
    as [extraction extracted] eqn:Hex.
  assert (exists e, extraction = [e]) as [e ->].
  { repeat case_decide; simplify_eq; eauto.
    exfalso. set_solver. }
  exists e. destruct extracted as [err|text]; [done|].
  destruct (negb (truthy (strip text))); [done|].
  by destruct (_split_text_into_chunks self fuel text) as [chunks|[]|].
Qed.

(** C8. Take as the extension of a file what follows the last full stop
    of its name, or the whole name when it has no full stop, in lower
    case. A file whose extension is none of pdf, doc, docx and txt is
    refused with the error for an unsupported extension, and all that was
    done with it is the read: no extractor and no decoder ran. Every other
    file is handed, after the read, to one extractor or to the decoder. *)
Theorem unsupported_extension_raises_before_extraction self libs fuel file :
  let extension :=
    lower (default (name file) (spec_extension (name file))) in
  let kinds := [lit "pdf"; lit "doc"; lit "docx"; lit "txt"] in
  (extension ∉ kinds ->
   process_uploaded_file self libs fuel file
   = ([Read], Raises (UnsupportedExtension extension)))
  /\ (extension ∈ kinds ->
      exists e, (process_uploaded_file self libs fuel file).1 = [Read; e]).
Proof.
  intros extension kinds. subst extension kinds.
  rewrite <- file_extension_spec. split.
  - intros Hext. unfold process_uploaded_file, _get_file_type.
    repeat case_decide; try done; exfalso; apply Hext.
    + subst. set_solver.
    + destruct_or!; set_solver.
    + set_solver.
  - intros Hext.
    destruct (_get_file_type (name file)) as [err|file_type] eqn:Htype.
    + exfalso. unfold _get_file_type in Htype.
      repeat case_decide; try done. set_solver.
    + by apply (known_type_is_extracted self libs fuel file file_type).
Qed.

Lemma unsupported_extension_raises_before_extraction_witness :
  let libs := {| pdf_pages := fun _ => Some [];
                 docx_document := fun _ => Some ([], []);
                 utf8_decode := fun b => Some b |} in
  let file := {| name := lit "Table.CSV"; file_bytes := lit "a,b" |} in
  process_uploaded_file (char_processor 1000 200) libs 5 file
  = ([Read], Raises (UnsupportedExtension (lit "csv"))).
Proof.
  intros libs file.
  apply (proj1 (unsupported_extension_raises_before_extraction
                  (char_processor 1000 200) libs 5 file)).
  vm_compute. intros H.
  repeat (inversion H as [|? ? ? H']; clear H; rename H' into H).
Defined.

(** C8, as stated, fails: a file named [pdf] has no full stop in its name
    and so no extension, yet it is not refused. The PDF extractor runs on
    its bytes and its text is chunked. *)
Lemma name_without_extension_is_extracted :
  let libs := {| pdf_pages := fun _ => Some [lit "page one"];
                 docx_document := fun _ => None;
                 utf8_decode := fun _ => None |} in
  let file := {| name := lit "pdf"; file_bytes := lit "%PDF-1.4" |} in
  spec_extension (name file) = None
  /\ process_uploaded_file (char_processor 1000 200) libs 5 file
     = ([Read; ExtractPdf],
        Returns
          [{| content := Some (lit "page one");
              metadata := Some [ (lit "filename", VStr (lit "pdf"));
                                 (lit "file_type", VStr (lit "pdf"));
                                 (lit "chunk_index", VInt 0);
                                 (lit "total_chunks", VInt 1) ] |}]).
Proof. split; reflexivity. Qed.

End PipelineFacts.

(** ** The store adapter and the answer assembler *)

Module RAGFacts.
Import Py PyFacts RAGService.

(** *** The order of the keys *)

Lemma code_inj x y : code x = code y -> x = y.
Proof.
  unfold code. intros H.
  by rewrite <- (ascii_N_embedding x), <- (ascii_N_embedding y), H.
Qed.

Lemma str_ltb_irrefl a : str_ltb a a = false.
Proof.
  induction a as [|x a IH]; simpl; [done|].
  rewrite N.ltb_irrefl, N.eqb_refl. by simpl.
Qed.

Lemma str_ltb_trans a b c :
  str_ltb a b = true -> str_ltb b c = true -> str_ltb a c = true.
Proof.
  revert b c. induction a as [|x a IH]; intros [|y b] [|z c]; simpl; try done.
  intros Hab Hbc.
  destruct (N.ltb_spec (code x) (code y)), (N.ltb_spec (code y) (code z)),
    (N.ltb_spec (code x) (code z)),
    (N.eqb_spec (code x) (code y)), (N.eqb_spec (code y) (code z)),
    (N.eqb_spec (code x) (code z));
    simpl in *; try done; try lia.
  by apply (IH b c).
Qed.

Lemma str_ltb_total a b :
  str_ltb a b = false -> str_ltb b a = false -> a = b.
Proof.
  revert b. induction a as [|x a IH]; intros [|y b]; simpl; try done.
  intros Hab Hba.
  destruct (N.ltb_spec (code x) (code y)), (N.ltb_spec (code y) (code x)),
    (N.eqb_spec (code x) (code y)), (N.eqb_spec (code y) (code x));
    simpl in *; try done; try lia.
  f_equal; [by apply code_inj | by apply IH].
Qed.

Lemma str_ltb_asym a b : str_ltb a b = true -> str_ltb b a = false.
Proof.
  intros H. destruct (str_ltb b a) eqn:E; [|done].
  pose proof (str_ltb_trans _ _ _ H E) as Haa.
  by rewrite str_ltb_irrefl in Haa.
Qed.

Lemma key_le_trans a b c : key_le a b -> key_le b c -> key_le a c.
Proof.
  unfold key_le. intros Hab Hbc.
  destruct (str_ltb c.1 a.1) eqn:Hca; [|done].
  destruct (str_ltb b.1 c.1) eqn:Hbc'.
  - by rewrite (str_ltb_trans _ _ _ Hbc' Hca) in Hab.
  - rewrite (str_ltb_total _ _ Hbc' Hbc) in Hab. congruence.
Qed.

(** *** Sorted keys *)

Lemma insert_item_perm item items : insert_item item items ≡ₚ item :: items.
Proof.
  induction items as [|other rest IH]; simpl; [done|].
  destruct (str_ltb other.1 item.1); [|done].
  by rewrite IH, Permutation_swap.
Qed.

Lemma insert_item_sorted item items :
  StronglySorted key_le items -> StronglySorted key_le (insert_item item items).
Proof.
  induction items as [|other rest IH]; simpl; intros Hs.
  - repeat constructor.
  - apply StronglySorted_inv in Hs as [Hrest Hall].
    destruct (str_ltb other.1 item.1) eqn:Hlt.
    + constructor; [by apply IH|].
      rewrite insert_item_perm. constructor; [|done].
      by apply str_ltb_asym.
    + constructor; [by constructor|].
      constructor; [done|].
      eapply Forall_impl; [exact Hall|].
      intros r Hr. by apply (key_le_trans item other r).
Qed.

Lemma sorted_items_perm d : sorted_items d ≡ₚ d.
Proof.
  induction d as [|item d IH]; simpl; [done|].
  by rewrite insert_item_perm, IH.
Qed.

Lemma sorted_items_sorted d : StronglySorted key_le (sorted_items d).
Proof.
  induction d as [|item d IH]; simpl; [constructor|].
  by apply insert_item_sorted.
Qed.

Lemma same_key_same_item (d : dict) a b :
  NoDup d.*1 -> a ∈ d -> b ∈ d -> a.1 = b.1 -> a = b.
Proof.
  induction d as [|item d IH]; simpl; intros Hnd Ha Hb Hk.
  - by apply elem_of_nil in Ha.
  - apply NoDup_cons in Hnd as [Hnot Hnd].
    apply elem_of_cons in Ha as [->|Ha], Hb as [->|Hb]; [done | | |by apply IH].
    + exfalso. apply Hnot. rewrite Hk. by apply (list_elem_of_fmap_2 fst).
    + exfalso. apply Hnot. rewrite <- Hk. by apply (list_elem_of_fmap_2 fst).
Qed.

(** The order in which a dict got its keys does not show in its sorted
    items. *)
Lemma sorted_items_order (d1 d2 : dict) :
  NoDup d1.*1 -> d1 ≡ₚ d2 -> sorted_items d1 = sorted_items d2.
Proof.
  intros Hnd Hperm.
  apply (StronglySorted_unique_strong key_le);
    [| apply sorted_items_sorted | apply sorted_items_sorted
     | by rewrite !sorted_items_perm].
  intros x1 x2 H1 H2 H12 H21.
  rewrite sorted_items_perm in H1. rewrite sorted_items_perm, <- Hperm in H2.
  apply (same_key_same_item d1); [done..|].
  by apply str_ltb_total.
Qed.

(** *** Records added to the collection *)

Lemma add_record_present (policy : on_existing) (recs : records)
    (row : str * (str * dict)) (k : str) :
  is_Some (recs !! k) -> is_Some (add_record policy recs row !! k).
Proof.
  intros Hk. unfold add_record.
  destruct policy, (recs !! row.1); try done;
    rewrite lookup_insert; case_decide; eauto.
Qed.

Lemma add_record_here (policy : on_existing) (recs : records)
    (row : str * (str * dict)) :
  is_Some (add_record policy recs row !! row.1).
Proof.
  unfold add_record.
  destruct policy, (recs !! row.1) eqn:E; rewrite ?lookup_insert_eq; eauto.
Qed.

Lemma add_record_other (policy : on_existing) (recs : records)
    (row : str * (str * dict)) (k : str) :
  row.1 <> k -> add_record policy recs row !! k = recs !! k.
Proof.
  intros Hne. unfold add_record.
  destruct policy, (recs !! row.1); by rewrite ?lookup_insert_ne.
Qed.

Lemma add_record_written (policy : on_existing) (recs : records)
    (row : str * (str * dict)) :
  policy <> Ignore -> add_record policy recs row !! row.1 = Some row.2.
Proof.
  intros Hp. unfold add_record.
  destruct policy, (recs !! row.1); by rewrite ?lookup_insert_eq.
Qed.

Lemma add_record_same (policy : on_existing) (recs : records)
    (row : str * (str * dict)) :
  recs !! row.1 = Some row.2 -> add_record policy recs row = recs.
Proof.
  intros H. unfold add_record. rewrite H.
  destruct policy; by rewrite ?insert_id.
Qed.

Lemma add_record_ignored (recs : records)
    (row : str * (str * dict)) :
  is_Some (recs !! row.1) -> add_record Ignore recs row = recs.
Proof. intros [v Hv]. unfold add_record. by rewrite Hv. Qed.

Lemma foldl_add_present (policy : on_existing)
    (rows : list (str * (str * dict))) (recs : records) (k : str) :
  is_Some (recs !! k) -> is_Some (foldl (add_record policy) recs rows !! k).
Proof.
  revert recs. induction rows as [|row rows IH]; intros recs Hk; simpl; [done|].
  by apply IH, add_record_present.
Qed.

Lemma foldl_add_other (policy : on_existing)
    (rows : list (str * (str * dict))) (recs : records) (k : str) :
  k ∉ rows.*1 -> foldl (add_record policy) recs rows !! k = recs !! k.
Proof.
  revert recs. induction rows as [|row rows IH]; intros recs Hk; simpl; [done|].
  apply not_elem_of_cons in Hk as [Hne Hk].
  rewrite IH by done. by apply add_record_other.
Qed.

Lemma foldl_add_added (policy : on_existing)
    (rows : list (str * (str * dict))) (recs : records)
    (row : str * (str * dict)) :
  row ∈ rows -> is_Some (foldl (add_record policy) recs rows !! row.1).
Proof.
  revert recs. induction rows as [|r rows IH]; intros recs Hin; simpl.
  - by apply elem_of_nil in Hin.
  - apply elem_of_cons in Hin as [->|Hin]; [|by apply IH].
    apply foldl_add_present, add_record_here.
Qed.

Lemma foldl_add_written (policy : on_existing)
    (rows : list (str * (str * dict))) (recs : records)
    (row : str * (str * dict)) :
  policy <> Ignore -> NoDup rows.*1 -> row ∈ rows ->
  foldl (add_record policy) recs rows !! row.1 = Some row.2.
Proof.
  intros Hp. revert recs.
  induction rows as [|r rows IH]; intros recs Hnd Hin; simpl.
  - by apply elem_of_nil in Hin.
  - apply NoDup_cons in Hnd as [Hnot Hnd].
    apply elem_of_cons in Hin as [->|Hin]; [|by apply IH].
    rewrite foldl_add_other by done. by apply add_record_written.
Qed.

Lemma foldl_add_same (policy : on_existing)
    (rows : list (str * (str * dict))) (recs : records) :
  (forall row, row ∈ rows -> recs !! row.1 = Some row.2) ->
  foldl (add_record policy) recs rows = recs.
Proof.
  induction rows as [|r rows IH]; intros H; simpl; [done|].
  rewrite add_record_same by (apply H; by left).
  apply IH. intros row Hrow. apply H. by right.
Qed.

Lemma foldl_add_ignored (rows : list (str * (str * dict))) (recs : records) :
  (forall row, row ∈ rows -> is_Some (recs !! row.1)) ->
  foldl (add_record Ignore) recs rows = recs.
Proof.
  induction rows as [|r rows IH]; intros H; cbn [foldl]; [done|].
  rewrite add_record_ignored by (apply H; by left).
  apply IH. intros row Hrow. apply H. by right.
Qed.

(** A batch that went in once goes in again without a change, or is
    refused. *)
Lemma collection_add_again (policy : on_existing) (ids documents : list str)
    (metadatas : list dict) (recs recs1 : records) :
  collection_add policy ids documents metadatas recs = Some recs1 ->
  collection_add policy ids documents metadatas recs1 = Some recs1
  \/ collection_add policy ids documents metadatas recs1 = None.
Proof.
  unfold collection_add.
  destruct (truthy ids) eqn:Hids; simpl; [|done].
  destruct (bool_decide (length documents = length ids
                         /\ length metadatas = length ids)) eqn:Hlen;
    simpl; [|done].
  destruct (bool_decide (NoDup ids)) eqn:Hnd; simpl; [|done].
  destruct (forallb truthy metadatas) eqn:Hmeta; simpl; [|done].
  apply bool_decide_eq_true in Hlen as [Hd Hm], Hnd.
  set (rows := zip ids (zip documents metadatas)).
  assert (rows.*1 = ids) as Hfst.
  { apply fst_zip. rewrite length_zip. lia. }
  destruct policy.
  - intros [= <-]. left. f_equal. apply foldl_add_ignored.
    intros row Hrow. by apply foldl_add_added.
  - intros [= <-]. left. f_equal. apply foldl_add_same.
    intros row Hrow. apply foldl_add_written; [done | by rewrite Hfst | done].
  - destruct (bool_decide (Exists _ ids)) eqn:Hex; [done|].
    intros [= <-]. right.
    rewrite bool_decide_eq_true_2; [done|].
    destruct ids as [|id ids]; [done|]. apply Exists_cons_hd.
    assert (id ∈ rows.*1) as Hid by (rewrite Hfst; by left).
    apply list_elem_of_fmap in Hid as (row & -> & Hrow).
    by apply foldl_add_added.
Qed.

(** *** What [add_documents] sends *)

(** The identifier, text and metadata that [add_documents] sends for a
    document with content [c]. *)
Lemma prepare_rows md5 (documents : list document)
    (ids0 texts0 : list str) (metas0 : list dict)
    (ids texts : list str) (metas : list dict) :
  prepare md5 documents ids0 texts0 metas0 = Some (ids, texts, metas) ->
  exists rows : list (str * (str * dict)),
    Forall2 (fun doc row =>
               exists c, content doc = Some c
                         /\ row = (_generate_doc_id md5 c
                                     (default [] (metadata doc)),
                                   (c, default [] (metadata doc))))
            documents rows
    /\ ids = ids0 ++ rows.*1
    /\ texts = texts0 ++ rows.*2.*1
    /\ metas = metas0 ++ rows.*2.*2.
Proof.
  revert ids0 texts0 metas0.
  induction documents as [|doc documents IH]; intros ids0 texts0 metas0; simpl.
  - intros [= <- <- <-]. exists []. by rewrite !app_nil_r.
  - destruct (content doc) as [c|] eqn:Hc; [|done]. simpl.
    intros H. apply IH in H as (rows & Hrows & -> & -> & ->).
    exists ((_generate_doc_id md5 c (default [] (metadata doc)),
             (c, default [] (metadata doc))) :: rows).
    split_and!; [|by rewrite <- app_assoc..].
    constructor; [by exists c | done].
Qed.

Lemma prepare_missing_content md5 (documents : list document)
    (ids0 texts0 : list str) (metas0 : list dict) doc :
  doc ∈ documents -> content doc = None ->
  prepare md5 documents ids0 texts0 metas0 = None.
Proof.
  revert ids0 texts0 metas0.
  induction documents as [|d documents IH]; intros ids0 texts0 metas0 Hin Hc.
  - by apply elem_of_nil in Hin.
  - simpl. apply elem_of_cons in Hin as [<-|Hin]; [by rewrite Hc|].
    destruct (content d); [|done]. simpl. by apply IH.
Qed.

Lemma collection_add_rows (policy : on_existing) (ids documents : list str)
    (metadatas : list dict) (recs recs1 : records) :
  collection_add policy ids documents metadatas recs = Some recs1 ->
  recs1 = foldl (add_record policy) recs (zip ids (zip documents metadatas))
  /\ NoDup ids
  /\ length documents = length ids /\ length metadatas = length ids.
Proof.
  unfold collection_add.
  destruct (truthy ids); simpl; [|done].
  destruct (bool_decide (length documents = length ids
                         /\ length metadatas = length ids)) eqn:Hlen;
    simpl; [|done].
  destruct (bool_decide (NoDup ids)) eqn:Hnd; simpl; [|done].
  destruct (forallb truthy metadatas) eqn:Hmeta; simpl; [|done].
  apply bool_decide_eq_true in Hlen as [Hd Hm], Hnd.
  destruct policy; [| |destruct (bool_decide _); [done|]];
    intros H; injection H as <-; done.
Qed.

(** *** What the serialization keeps apart *)

Lemma json_unescape_escape c rest :
  json_unescape_char (json_escape_char c ++ rest) = Some (c, rest).
Proof. by destruct c as [[] [] [] [] [] [] [] []]. Qed.

Lemma json_body_inj s s' rest rest' :
  flat_map json_escape_char s ++ quote :: rest
  = flat_map json_escape_char s' ++ quote :: rest' ->
  s = s' /\ rest = rest'.
Proof.
  revert s'. induction s as [|c s IH]; intros [|c' s']; simpl.
  - by intros [= ->].
  - rewrite <- app_assoc. intros H%(f_equal json_unescape_char).
    by rewrite json_unescape_escape in H.
  - rewrite <- app_assoc. intros H%(f_equal json_unescape_char).
    by rewrite json_unescape_escape in H.
  - rewrite <- !app_assoc. intros H%(f_equal json_unescape_char).
    rewrite !json_unescape_escape in H. injection H as -> H.
    by destruct (IH _ H) as [-> ->].
Qed.

Lemma json_string_inj s s' rest rest' :
  json_string s ++ rest = json_string s' ++ rest' -> s = s' /\ rest = rest'.
Proof.
  unfold json_string. simpl. rewrite <- !app_assoc. simpl.
  intros [= H]. by apply json_body_inj.
Qed.

Lemma json_int_inj z z' : json_int z = json_int z' -> z = z'.
Proof.
  unfold json_int, lit. intros H.
  apply (f_equal string_of_list_ascii) in H.
  rewrite !string_of_list_ascii_of_string in H.
  apply (f_equal NilZero.int_of_string) in H.
  assert (forall z, Z.to_int z <> Decimal.Pos Decimal.Nil
                    /\ Z.to_int z <> Decimal.Neg Decimal.Nil) as Hnil.
  { intros x. split; intros Hx; pose proof (f_equal Z.of_int Hx) as Hx';
      rewrite DecimalZ.of_to in Hx'; by subst x. }
  rewrite !NilZero.isi in H by apply Hnil.
  injection H as H. by apply DecimalZ.to_int_inj.
Qed.

Lemma uint_chars d :
  forallb is_int_char (lit (NilEmpty.string_of_uint d)) = true.
Proof. induction d; simpl; by rewrite ?IHd. Qed.

Lemma json_int_chars z :
  forallb is_int_char (json_int z) = true /\ json_int z <> [].
Proof.
  unfold json_int.
  destruct (Z.to_int z) as [d|d]; simpl.
  - destruct d; simpl; by rewrite ?uint_chars.
  - destruct d; simpl; by rewrite ?uint_chars.
Qed.

(** Two texts that start with a run of characters of one kind and go on
    with a character of another kind have the same run. *)
Lemma run_inj (kind : ascii -> bool) (a a' rest rest' : str) :
  forallb kind a = true -> forallb kind a' = true ->
  head (kind <$> rest) = Some false -> head (kind <$> rest') = Some false ->
  a ++ rest = a' ++ rest' -> a = a' /\ rest = rest'.
Proof.
  revert a'. induction a as [|c a IH]; intros [|c' a'] Ha Ha' Hr Hr' H;
    simpl in *.
  - done.
  - subst rest. simpl in Hr. apply andb_prop in Ha' as [Hc _]. congruence.
  - subst rest'. simpl in Hr'. apply andb_prop in Ha as [Hc _]. congruence.
  - apply andb_prop in Ha as [_ Ha], Ha' as [_ Ha'].
    injection H as -> H. by destruct (IH _ Ha Ha' Hr Hr' H) as [-> ->].
Qed.

Lemma json_value_inj v v' rest rest' :
  head (is_int_char <$> rest) = Some false ->
  head (is_int_char <$> rest') = Some false ->
  json_value v ++ rest = json_value v' ++ rest' -> v = v' /\ rest = rest'.
Proof.
  intros Hr Hr'. destruct v as [s|z], v' as [s'|z']; simpl.
  - intros H. by destruct (json_string_inj _ _ _ _ H) as [-> ->].
  - destruct (json_int_chars z') as [Hc Hne].
    destruct (json_int z') as [|c t]; [done|]. simpl in *.
    intros [= <- _]. by apply andb_prop in Hc as [? _].
  - destruct (json_int_chars z) as [Hc Hne].
    destruct (json_int z) as [|c t]; [done|]. simpl in *.
    intros [= -> _]. by apply andb_prop in Hc as [? _].
  - intros H.
    destruct (run_inj is_int_char _ _ _ _
                (proj1 (json_int_chars z)) (proj1 (json_int_chars z'))
                Hr Hr' H) as [Hz ->].
    by rewrite (json_int_inj _ _ Hz).
Qed.

Lemma item_text_inj item item' rest rest' :
  head (is_int_char <$> rest) = Some false ->
  head (is_int_char <$> rest') = Some false ->
  item_text item ++ rest = item_text item' ++ rest' ->
  item = item' /\ rest = rest'.
Proof.
  intros Hr Hr'. destruct item as [k v], item' as [k' v'].
  unfold item_text. cbn [fst snd]. rewrite <- !app_assoc. intros H.
  apply json_string_inj in H as [-> H]. apply app_inv_head in H.
  by destruct (json_value_inj _ _ _ _ Hr Hr' H) as [-> ->].
Qed.

Lemma join_cons sep (p : str) (rest : list str) :
  join sep (p :: rest) = p ++ flat_map (fun q => sep ++ q) rest.
Proof.
  revert p. induction rest as [|q rest IH]; intros p.
  - simpl. by rewrite app_nil_r.
  - change (join sep (p :: q :: rest)) with (p ++ sep ++ join sep (q :: rest)).
    rewrite IH. simpl. by rewrite <- !app_assoc.
Qed.

Lemma items_tail_inj (l l' : list (str * value)) :
  flat_map (fun q => lit ", " ++ q) (map item_text l) ++ lit "}"
  = flat_map (fun q => lit ", " ++ q) (map item_text l') ++ lit "}" ->
  l = l'.
Proof.
  assert (forall l : list (str * value),
            head (is_int_char <$>
                    flat_map (fun q => lit ", " ++ q) (map item_text l)
                    ++ lit "}") = Some false) as Hhead.
  { by intros [|i l0]. }
  revert l'. induction l as [|i l IH]; intros [|i' l']; try done.
  cbn [map flat_map]. rewrite <- !app_assoc. intros H.
  apply app_inv_head in H.
  apply item_text_inj in H as [-> H]; [|apply Hhead..].
  by rewrite (IH _ H).
Qed.

Lemma json_items_inj (l l' : list (str * value)) :
  lit "{" ++ join (lit ", ") (map item_text l) ++ lit "}"
  = lit "{" ++ join (lit ", ") (map item_text l') ++ lit "}" ->
  l = l'.
Proof.
  assert (forall l : list (str * value),
            head (is_int_char <$>
                    flat_map (fun q => lit ", " ++ q) (map item_text l)
                    ++ lit "}") = Some false) as Hhead.
  { by intros [|i l0]. }
  intros H. apply app_inv_head in H.
  destruct l as [|i l], l' as [|i' l']; try done.
  - cbn [map] in H. rewrite join_cons in H. by destruct i' as [k v].
  - cbn [map] in H. rewrite join_cons in H. by destruct i as [k v].
  - cbn [map] in H. rewrite !join_cons, <- !app_assoc in H.
    apply item_text_inj in H as [-> H]; [|apply Hhead..].
    by rewrite (items_tail_inj _ _ H).
Qed.

(** The serialization with sorted keys tells the items of the dict. *)
Lemma json_dumps_sorted_inj (d d' : dict) :
  json_dumps_sorted d = json_dumps_sorted d' -> d ≡ₚ d'.
Proof.
  intros H. apply json_items_inj in H.
  by rewrite <- (sorted_items_perm d), <- (sorted_items_perm d'), H.
Qed.

(** *** Counting the records *)

Lemma foldl_add_size (policy : on_existing)
    (rows : list (str * (str * dict))) (recs : records) :
  NoDup rows.*1 -> Forall (fun k => recs !! k = None) rows.*1 ->
  size (foldl (add_record policy) recs rows) = (size recs + length rows)%nat.
Proof.
  revert recs. induction rows as [|row rows IH]; intros recs Hnd Hnew; simpl.
  - lia.
  - apply NoDup_cons in Hnd as [Hnot Hnd].
    apply Forall_cons in Hnew as [Hrow Hnew].
    assert (add_record policy recs row = <[row.1 := row.2]> recs) as ->.
    { unfold add_record. rewrite Hrow. by destruct policy. }
    rewrite IH; [|done|].
    + rewrite map_size_insert_None by done. lia.
    + apply Forall_forall. intros k Hk.
      rewrite lookup_insert_ne by (intros <-; done).
      by apply (proj1 (Forall_forall _ _) Hnew).
Qed.

(** A batch that went in once goes in again, unless the store refuses the
    identifiers it holds. *)
Lemma collection_add_again_accepted (policy : on_existing)
    (ids documents : list str) (metadatas : list dict) (recs recs1 : records) :
  policy <> Reject ->
  collection_add policy ids documents metadatas recs = Some recs1 ->
  collection_add policy ids documents metadatas recs1 = Some recs1.
Proof.
  intros Hp Hadd.
  destruct (collection_add_again _ _ _ _ _ _ Hadd) as [H|H]; [done|].
  exfalso. unfold collection_add in Hadd, H.
  destruct (negb (truthy ids)); [done|].
  destruct (negb (bool_decide _)); [done|].
  destruct (negb (bool_decide _)); [done|].
  destruct (negb (forallb _ _)); [done|].
  by destruct policy.
Qed.

(** *** Identifiers and repeated upserts *)

(** C3. The identifier of a chunk is made of the hash of its content and
    the hash of its metadata written with the keys in ascending order: two
    dicts with the same items, in whatever order, give the same identifier,
    and dicts that are written the same have the same items; two chunks
    whose content hashes are as long as each other (as md5 digests are)
    have the same identifier exactly when both hashes agree. A successful
    add stores every document of the batch under its identifier, with its
    own content and metadata unless the store keeps what it held; when the
    collection held none of the identifiers its count grows by the number
    of documents; and unless the store refuses identifiers it holds, adding
    the same documents again succeeds. Adding the same documents a second
    time leaves the records of the collection, and so its count, as the
    first call left them, whether the store keeps, overwrites or refuses an
    identifier it already holds. *)
Theorem upsert_same_chunk_twice
    (md5_hexdigest : bytes -> str) (policy : on_existing) :
  let doc_id := _generate_doc_id md5_hexdigest in
  let add := add_documents md5_hexdigest policy in
  (forall content (m1 m2 : dict),
      NoDup m1.*1 -> m1 ≡ₚ m2 -> doc_id content m1 = doc_id content m2)
  /\ (forall m1 m2 : dict,
         json_dumps_sorted m1 = json_dumps_sorted m2 -> m1 ≡ₚ m2)
  /\ (forall c1 c2 (m1 m2 : dict),
         let hash s := md5_hexdigest (utf8_encode s) in
         length (hash c1) = length (hash c2) ->
         doc_id c1 m1 = doc_id c2 m2
         <-> hash c1 = hash c2
             /\ hash (json_dumps_sorted m1) = hash (json_dumps_sorted m2))
  /\ (forall documents st,
         (add documents st).1 = true ->
         (forall doc, doc ∈ documents ->
            exists c,
              content doc = Some c
              /\ is_Some (items (add documents st).2
                            !! doc_id c (default [] (metadata doc)))
              /\ (policy <> Ignore ->
                  items (add documents st).2
                    !! doc_id c (default [] (metadata doc))
                  = Some (c, default [] (metadata doc))))
         /\ ((forall doc c, doc ∈ documents -> content doc = Some c ->
                items st !! doc_id c (default [] (metadata doc)) = None) ->
             count (add documents st).2
             = (count st + length documents)%nat)
         /\ (policy <> Reject ->
             (add documents (add documents st).2).1 = true))
  /\ (forall documents st,
         let st1 := (add documents st).2 in
         let st2 := (add documents st1).2 in
         items st2 = items st1 /\ count st2 = count st1).
Proof.
  intros doc_id add. subst doc_id add. split_and!.
  - intros content m1 m2 Hnd Hperm.
    unfold _generate_doc_id, json_dumps_sorted.
    by rewrite (sorted_items_order m1 m2).
  - apply json_dumps_sorted_inj.
  - intros c1 c2 m1 m2 hash Hlen. subst hash. unfold _generate_doc_id.
    split.
    + intros H. apply app_inj_1 in H as [H1 H2]; [|done].
      by apply app_inv_head in H2.
    + by intros [-> ->].
  - intros documents st. unfold add_documents.
    destruct documents as [|doc0 documents0] eqn:Hdocs; simpl truthy; cbv iota.
    { simpl. intros _. split_and!; [|intros _; unfold count; lia|done].
      intros doc Hin. by apply elem_of_nil in Hin. }
    rewrite <- Hdocs. simpl negb. cbv iota.
    destruct (prepare md5_hexdigest documents [] [] [])
      as [[[ids texts] metas]|] eqn:Hprep; [|done].
    apply prepare_rows in Hprep as (rows & Hrows & -> & -> & ->).
    simpl app.
    destruct (collection_add policy rows.*1 rows.*2.*1 rows.*2.*2 (items st))
      as [recs1|] eqn:Hadd; simpl; [|done].
    intros _. split_and!.
    + apply collection_add_rows in Hadd as (-> & Hnd & _ & _).
      rewrite !zip_fst_snd in *.
      intros doc Hin. apply list_elem_of_lookup in Hin as [i Hi].
      destruct (Forall2_lookup_l _ _ _ _ _ Hrows Hi)
        as (row & Hrow & c & Hc & ->).
      apply list_elem_of_lookup_2 in Hrow.
      exists c. split_and!; [done | |].
      * by apply (foldl_add_added policy rows (items st) _ Hrow).
      * intros Hp.
        by apply (foldl_add_written policy rows (items st) _ Hp Hnd Hrow).
    + apply collection_add_rows in Hadd as (-> & Hnd & _ & _).
      rewrite !zip_fst_snd in *.
      intros Hnew. unfold count. simpl.
      rewrite foldl_add_size, (Forall2_length _ _ _ Hrows); [done..|].
      apply Forall_forall. intros k Hk.
      apply list_elem_of_fmap in Hk as (row & -> & Hrow).
      apply list_elem_of_lookup in Hrow as [i Hi].
      destruct (Forall2_lookup_r _ _ _ _ _ Hrows Hi)
        as (doc & Hdoc & c & Hc & ->).
      apply list_elem_of_lookup_2 in Hdoc. by apply (Hnew doc c).
    + intros Hp.
      by rewrite (collection_add_again_accepted _ _ _ _ _ _ Hp Hadd).
  - intros documents st st1 st2.
    assert (items st2 = items st1) as Hitems; [|by unfold count; rewrite Hitems].
    subst st2 st1. unfold add_documents.
    destruct (truthy documents); simpl; [|done].
    destruct (prepare md5_hexdigest documents [] [] [])
      as [[[ids texts] metadatas]|]; simpl; [|done].
    destruct (collection_add policy ids texts metadatas (items st))
      as [recs1|] eqn:Hadd; simpl.
    + destruct (collection_add_again _ _ _ _ _ _ Hadd) as [-> | ->]; done.
    + by rewrite Hadd.
Qed.

Lemma upsert_same_chunk_twice_witness :
  let md5 := fun b : bytes => b in
  let m1 := [(lit "filename", VStr (lit "a.txt")); (lit "chunk_index", VInt 0)] in
  let m2 := [(lit "chunk_index", VInt 0); (lit "filename", VStr (lit "a.txt"))] in
  let doc := {| content := Some (lit "hello"); metadata := Some m1 |} in
  let st := {| items := ∅; calls := [] |} in
  let st1 := (add_documents md5 Ignore [doc] st).2 in
  let st2 := (add_documents md5 Ignore [doc] st1).2 in
  _generate_doc_id md5 (lit "hello") m1 = _generate_doc_id md5 (lit "hello") m2
  /\ count st1 = 1%nat
  /\ count st2 = 1%nat.
Proof.
  intros md5 m1 m2 doc st st1 st2.
  destruct (upsert_same_chunk_twice md5 Ignore)
    as (Horder & _ & _ & Hadd & Htwice).
  destruct (Hadd [doc] st eq_refl) as (_ & Hcount & _).
  destruct (Htwice [doc] st) as [_ Hsame].
  assert (count st1 = 1%nat) as H1.
  { apply Hcount. intros d c Hd Hc. apply lookup_empty. }
  split_and!.
  - apply Horder; [|apply Permutation_swap].
    apply (bool_decide_unpack _). by vm_compute.
  - exact H1.
  - subst st2. fold st1 in Hsame. by rewrite Hsame.
Defined.

(** C9. Adding no document answers [True] at once: the collection and the
    log of the calls sent to the store are as they were. *)
Theorem add_no_documents
    (md5_hexdigest : bytes -> str) (policy : on_existing) (st : state) :
  add_documents md5_hexdigest policy [] st = (true, st).
Proof. reflexivity. Qed.

(** *** Search *)

Lemma formatted_fields {distance} (docs : list str) (metas : list dict)
    (dists : list distance) :
  length metas = length docs -> length dists = length docs ->
  let found :=
    zip_with (fun doc md =>
                {| result_content := doc; result_metadata := md.1;
                   result_distance := Some md.2 |}) docs (zip metas dists) in
  map result_content found = docs
  /\ map result_metadata found = metas
  /\ map result_distance found = Some <$> dists.
Proof.
  revert metas dists.
  induction docs as [|doc docs IH]; intros [|m metas] [|d dists] Hm Hd;
    simplify_eq/=; [done|].
  destruct (IH metas dists) as (H1 & H2 & H3); [done..|].
  by rewrite H1, H2, H3.
Qed.

Lemma format_results_parallel {distance} (results : query_result distance)
    docs metas dists :
  documents results = Some [docs] ->
  metadatas results = Some [metas] ->
  distances results = Some [dists] ->
  length metas = length docs -> length dists = length docs ->
  format_results results
  = Some (zip_with (fun doc md =>
                      {| result_content := doc; result_metadata := md.1;
                         result_distance := Some md.2 |})
                   docs (zip metas dists)).
Proof.
  intros Hdocs Hmetas Hdists Hm Hd. unfold format_results.
  rewrite Hdocs, Hmetas, Hdists. simpl.
  apply mapM_Some_2, Forall2_same_length_lookup_2.
  - rewrite length_imap, length_zip_with, length_zip. lia.
  - intros i [j doc] found Hi Hfound.
    rewrite list_lookup_imap in Hi.
    destruct (docs !! i) as [doc'|] eqn:Hdoc; simplify_eq/=.
    apply lookup_zip_with_Some in Hfound as (doc' & [m d] & -> & Hdoc' & Hmd).
    apply lookup_zip_with_Some in Hmd as (? & ? & [= <- <-] & Hmi & Hdi).
    simplify_eq. unfold cell. simpl. by rewrite Hmi, Hdi.
Qed.

Lemma sorted_by_distance {distance} (closer : relation distance)
    (found : list (search_result distance)) dists :
  map result_distance found = Some <$> dists ->
  Sorted closer dists -> Sorted (by_distance closer) found.
Proof.
  revert dists. induction found as [|r found IH]; intros [|d dists] Hmap Hs;
    simplify_eq/=; [constructor..|].
  apply Sorted_inv in Hs as [Hs Hhd].
  constructor; [by eapply IH|].
  destruct found as [|r' found], dists as [|d' dists]; simplify_eq/=;
    constructor.
  apply HdRel_inv in Hhd. unfold by_distance. by rewrite H, H0.
Qed.

(** C7. The search never raises. When the store raises, or answers with no
    documents, the search answers with the empty list. When the store
    answers one query text with parallel lists of at most [n_results]
    documents, metadata and distances, the distances ascending, the search
    answers with as many results, in the same order: their contents,
    metadata and distances are the store's, so they are at most [n_results]
    and ascend by distance. *)
Theorem search_documents_ranked {distance}
    (collection_query :
       records -> list str -> Z -> option (query_result distance))
    (closer : relation distance) (query : str) (n_results : Z) (st : state) :
  let answer := collection_query (items st) [query] n_results in
  let found := (search_documents collection_query query n_results st).1 in
  (answer = None -> found = [])
  /\ (forall results,
         answer = Some results ->
         present (documents results) = false
         \/ (exists rest, documents results = Some ([] :: rest)) ->
         found = [])
  /\ (forall results docs metas dists,
         answer = Some results ->
         documents results = Some [docs] ->
         metadatas results = Some [metas] ->
         distances results = Some [dists] ->
         length metas = length docs -> length dists = length docs ->
         len docs <= n_results ->
         Sorted closer dists ->
         map result_content found = docs
         /\ map result_metadata found = metas
         /\ map result_distance found = Some <$> dists
         /\ len found <= n_results
         /\ Sorted (by_distance closer) found).
Proof.
  intros answer found. subst found. unfold search_documents. fold answer.
  split_and!.
  - by intros ->.
  - intros results -> [Hno|[rest Hrest]]; simpl.
    + unfold format_results. by rewrite Hno.
    + unfold format_results. by rewrite Hrest.
  - intros results docs metas dists -> Hdocs Hmetas Hdists Hm Hd Hk Hs.
    rewrite (format_results_parallel results docs metas dists) by done.
    simpl.
    destruct (formatted_fields docs metas dists Hm Hd) as (H1 & H2 & H3).
    split_and!; [done | done | done | |].
    + unfold len in *. rewrite <- H1 in Hk at 1.
      by rewrite length_map in Hk.
    + by apply (sorted_by_distance closer _ dists).
Qed.

Lemma search_documents_ranked_witness :
  let answer : query_result Z :=
    {| documents := Some [[lit "near"; lit "far"]];
       metadatas := Some [[[]; []]];
       distances := Some [[1; 5]] |} in
  let found :=
    (search_documents (fun _ _ _ => Some answer) (lit "q") 5
       {| items := ∅; calls := [] |}).1 in
  map result_content found = [lit "near"; lit "far"]
  /\ map result_distance found = [Some 1; Some 5]
  /\ Sorted (by_distance Z.le) found.
Proof.
  intros answer found.
  destruct (proj2 (proj2 (search_documents_ranked
                            (fun _ _ _ => Some answer) Z.le (lit "q") 5
                            {| items := ∅; calls := [] |}))
              answer [lit "near"; lit "far"] [[]; []] [1; 5]
              eq_refl eq_refl eq_refl eq_refl eq_refl eq_refl)
    as (H1 & _ & H3 & _ & H5).
  - by vm_compute.
  - repeat constructor. lia.
  - done.
Defined.

(** *** Answers *)

(** C10. The answer is always a string. When the generation call raises,
    the answer is the error prefix followed by the message of the
    exception, and a service that answered with that very text would have
    given the same string. A context document with no content, or an answer
    of the service with no response in it, gives the prefix followed by the
    missing key. *)
Theorem generate_response_reports_failure
    (ollama_generate : str -> str -> generation)
    (query : str) (context_docs : list document) (model : str) (st : state) :
  (forall contents e,
      mapM content context_docs = Some contents ->
      ollama_generate model (make_prompt (join (nl ++ nl) contents) query)
      = inl e ->
      (generate_response ollama_generate query context_docs model st).1
      = error_prefix ++ e
      /\ (generate_response (fun _ _ => inr (Some (error_prefix ++ e)))
            query context_docs model st).1
         = error_prefix ++ e)
  /\ (mapM content context_docs = None ->
      generate_response ollama_generate query context_docs model st
      = (error_prefix ++ lit "'content'", st))
  /\ (forall contents,
         mapM content context_docs = Some contents ->
         ollama_generate model (make_prompt (join (nl ++ nl) contents) query)
         = inr None ->
         (generate_response ollama_generate query context_docs model st).1
         = error_prefix ++ lit "'response'").
Proof.
  unfold generate_response. split_and!.
  - intros contents e -> Hgen. by rewrite Hgen.
  - by intros ->.
  - intros contents -> Hgen. by rewrite Hgen.
Qed.

Lemma generate_response_reports_failure_witness :
  let down : str -> str -> generation :=
    fun _ _ => inl (lit "connection refused") in
  (generate_response down (lit "why?")
     [{| content := Some (lit "because"); metadata := None |}]
     (lit "llama2") {| items := ∅; calls := [] |}).1
  = lit "Error generating response: connection refused".
Proof.
  intros down.
  apply (proj1 (generate_response_reports_failure down (lit "why?")
                  [{| content := Some (lit "because"); metadata := None |}]
                  (lit "llama2") {| items := ∅; calls := [] |})
           [lit "because"] (lit "connection refused") eq_refl eq_refl).
Defined.

End RAGFacts.

(** ** More on the chunker *)

Module ChunkerMore.
Import Py PyFacts DocumentProcessor ChunkerFacts.

(** *** Pieces of a text *)

Lemma piece_of_trans (a b c : str) : piece_of a b -> piece_of b c -> piece_of a c.
Proof.
  intros (b1 & b2 & ->) (c1 & c2 & ->).
  exists (c1 ++ b1), (b2 ++ c2). by rewrite <- !app_assoc.
Qed.

Lemma piece_of_length (a b : str) : piece_of a b -> len a <= len b.
Proof.
  intros (b1 & b2 & ->). unfold len. rewrite !length_app. lia.
Qed.

Lemma piece_of_elem (a b : str) c : piece_of a b -> c ∈ a -> c ∈ b.
Proof.
  intros (b1 & b2 & ->) Hc. apply elem_of_app. right.
  apply elem_of_app. by left.
Qed.

Lemma strip_piece (s : str) : piece_of (strip s) s.
Proof.
  destruct (lstrip_suffix s) as (w & Hs & _).
  destruct (lstrip_suffix (rev (lstrip s))) as (w' & Hr & _).
  apply (f_equal (@rev ascii)) in Hr. rewrite rev_involutive, rev_app_distr in Hr.
  exists w, (rev w'). unfold strip, rstrip. by rewrite <- Hr.
Qed.

Lemma slice_piece {A} (l : list A) a b :
  0 <= a -> 0 <= b ->
  exists before after, l = before ++ slice l a b ++ after.
Proof.
  intros Ha Hb. rewrite slice_take_drop by done.
  exists (take (Z.to_nat a) l),
    (drop (Z.to_nat (b - a)) (drop (Z.to_nat a) l)).
  by rewrite !take_drop.
Qed.

Lemma slice_length_le {A} (l : list A) a n :
  0 <= a -> 0 <= n -> len (slice l a (a + n)) <= n.
Proof.
  intros Ha Hn. rewrite slice_take_drop by lia.
  unfold len. rewrite length_take. lia.
Qed.

Lemma keep_piece (w : str) : Forall (fun c => piece_of c w) (keep w).
Proof.
  unfold keep. destruct (truthy (strip w)); repeat constructor.
  apply strip_piece.
Qed.

Lemma length_flat_map_keep (ws : list str) :
  (length (flat_map keep ws) <= length ws)%nat.
Proof.
  induction ws as [|w ws IH]; simpl; [done|].
  rewrite length_app. unfold keep at 1.
  destruct (truthy (strip w)); simpl; lia.
Qed.

Lemma windows_from_length text size step n start :
  length (windows_from text size step n start) = n.
Proof.
  revert start. induction n as [|n IH]; intros start; simpl; [done|].
  by rewrite IH.
Qed.

Lemma windows_from_pieces text size step n start :
  0 <= start -> 0 <= size -> 0 <= step ->
  Forall (fun w => piece_of w text /\ len w <= size)
         (windows_from text size step n start).
Proof.
  intros Hs Hsize Hstep. revert start Hs.
  induction n as [|n IH]; intros start Hs; simpl; constructor.
  - split; [apply slice_piece; lia | by apply slice_length_le].
  - apply IH. lia.
Qed.

(** X4. The chunks of the character fallback are pieces of the text, each
    of at most S * 4 characters, and there are no more of them than
    windows: the length of the text over (S - O) * 4, rounded up. *)
Theorem fallback_chunk_bounds self text :
  0 <= chunk_overlap self < chunk_size self ->
  let chunks :=
    flat_map keep (char_windows (chunk_size self) (chunk_overlap self) text) in
  let step := chunk_size self * 4 - chunk_overlap self * 4 in
  returns (fun fuel => _simple_text_split self fuel text) chunks
  /\ Forall (fun chunk =>
               piece_of chunk text /\ len chunk <= chunk_size self * 4) chunks
  /\ len chunks <= (len text + step - 1) / step.
Proof.
  intros Hvalid chunks step. split_and!.
  - by apply simple_text_split_returns.
  - subst chunks. unfold char_windows.
    pose proof (windows_from_pieces text (chunk_size self * 4) step
                  (Z.to_nat ((len text + step - 1) / step)) 0
                  ltac:(lia) ltac:(lia) ltac:(subst step; lia)) as Hw.
    fold step. induction Hw as [|w ws [Hp Hl] _ IH]; simpl; [constructor|].
    apply Forall_app. split; [|done].
    eapply Forall_impl; [apply keep_piece|]. intros c Hc. split.
    + exact (piece_of_trans _ _ _ Hc Hp).
    + apply piece_of_length in Hc. lia.
  - subst chunks. unfold char_windows. fold step.
    pose proof (length_flat_map_keep
                  (windows_from text (chunk_size self * 4) step
                     (Z.to_nat ((len text + step - 1) / step)) 0)) as Hlen.
    rewrite windows_from_length in Hlen. unfold len at 1.
    assert (0 <= (len text + step - 1) / step); [|lia].
    apply Z.div_pos; subst step; unfold len; lia.
Qed.

Lemma fallback_chunk_bounds_witness :
  let self := {| chunk_size := 2; chunk_overlap := 1;
                 encoding := failing_encoding |} in
  let text := lit "hello world, hello" in
  len (flat_map keep (char_windows 2 1 text)) <= 5.
Proof.
  intros self text.
  apply (fallback_chunk_bounds
           {| chunk_size := 2; chunk_overlap := 1;
              encoding := failing_encoding |} (lit "hello world, hello")).
  simpl. lia.
Defined.

(** *** Text with no full stop *)

Section NoFullStop.
Variable self : t.
Hypothesis Hvalid : 0 <= chunk_overlap self < chunk_size self.
Hypothesis Hlaw : lawful (encoding self).
Variable text : str.
Variable tokens : list token.
Hypothesis Hdec : decode (encoding self) tokens = Some text.
Hypothesis Hnodot : "."%char ∉ text.

Let step := chunk_size self - chunk_overlap self.
Let rounds (start : Z) : nat :=
  Z.to_nat ((len tokens - start + step - 1) / step).

Lemma token_rounds_done start : len tokens <= start -> rounds start = 0%nat.
Proof.
  intros H. unfold rounds.
  assert ((len tokens - start + step - 1) / step < 1); [|lia].
  apply Z.div_lt_upper_bound; subst step; lia.
Qed.

Lemma token_rounds_more start :
  start < len tokens -> rounds start = S (rounds (start + step)).
Proof.
  intros H. unfold rounds.
  replace (len tokens - start + step - 1)
    with ((len tokens - start - 1) + 1 * step) by lia.
  rewrite Z.div_add by (subst step; lia).
  replace (len tokens - (start + step) + step - 1)
    with (len tokens - start - 1) by lia.
  assert (0 <= (len tokens - start - 1) / step); [|lia].
  apply Z.div_pos; subst step; lia.
Qed.

(** A window reads as a piece of the text. *)
Lemma window_decodes start end_ :
  0 <= start -> 0 <= end_ ->
  exists txt,
    decode (encoding self) (slice tokens start end_) = Some txt
    /\ piece_of txt text.
Proof.
  intros Hs He.
  destruct (slice_piece tokens start end_ Hs He) as (a & b & Htok).
  pose proof Hdec as H. rewrite Htok in H.
  apply (decode_parts self Hlaw) in H as (ta & tr & _ & Hr & ->).
  apply (decode_parts self Hlaw) in Hr as (tw & tb & Hw & _ & ->).
  exists tw. split; [done|]. by exists ta, tb.
Qed.

Lemma window_end_fixed start :
  0 <= start ->
  window_end self tokens start = Some (start + chunk_size self).
Proof.
  intros Hs. unfold window_end.
  destruct (start + chunk_size self <? len tokens); [|done].
  destruct (window_decodes start (start + chunk_size self))
    as (txt & -> & Hp); [lia..|]. simpl.
  destruct (1 <? len (split "." txt)) eqn:E; [|done].
  apply split_length_gt1 in E. exfalso. apply Hnodot.
  by eapply piece_of_elem.
Qed.

Lemma token_loop_fixed_windows fuel start chunks :
  0 <= start ->
  (rounds start < fuel)%nat ->
  token_loop self fuel tokens start chunks
  = Returns (chunks
             ++ flat_map (fun w => keep (decoded (encoding self) w))
                  (token_windows tokens (chunk_size self) step
                     (rounds start) start)).
Proof.
  revert start chunks.
  induction fuel as [|fuel IH]; intros start chunks Hs Hfuel; [lia|].
  destruct (Z.lt_ge_cases start (len tokens)) as [Hlt|Hge].
  - rewrite token_rounds_more in * by done.
    destruct (window_decodes start (start + chunk_size self))
      as (txt & Htxt & _); [lia..|].
    rewrite (token_loop_step self fuel tokens start chunks
               (start + chunk_size self) txt)
      by (done || by apply window_end_fixed).
    rewrite next_start_overlap by lia.
    replace (start + chunk_size self - chunk_overlap self)
      with (start + step) by (subst step; lia).
    rewrite IH by (subst step; lia).
    simpl. unfold decoded at 2. rewrite Htxt. simpl.
    by rewrite <- app_assoc.
  - rewrite token_loop_exit, token_rounds_done by done.
    simpl. by rewrite app_nil_r.
Qed.

End NoFullStop.

(** X5. A text with no full stop, 0 <= O < S, and a tokenizer that decodes
    what it encoded token by token: the token-based chunker terminates and
    returns the windows of S tokens, each starting O tokens before the end
    of the one before, decoded and trimmed, the empty ones left out. *)
Theorem text_without_full_stop_fixed_windows self text tokens :
  0 <= chunk_overlap self < chunk_size self ->
  lawful (encoding self) ->
  encode (encoding self) text = Some tokens ->
  "."%char ∉ text ->
  returns (fun fuel => _split_text_into_chunks self fuel text)
    (flat_map (fun w => keep (decoded (encoding self) w))
       (fixed_windows self tokens)).
Proof.
  intros Hvalid Hlaw He Hnodot.
  pose proof (decode_encode _ Hlaw _ _ He) as Hdec.
  set (step := chunk_size self - chunk_overlap self).
  exists (S (Z.to_nat ((len tokens + step - 1) / step))).
  intros fuel Hfuel. unfold _split_text_into_chunks. rewrite He.
  rewrite (token_loop_fixed_windows self Hvalid Hlaw text tokens Hdec Hnodot);
    [|lia|].
  - unfold fixed_windows. fold step.
    by replace (len tokens - 0 + step - 1) with (len tokens + step - 1) by lia.
  - fold step.
    by replace (len tokens - 0 + step - 1) with (len tokens + step - 1) by lia.
Qed.

Lemma text_without_full_stop_fixed_windows_witness :
  returns (fun fuel =>
             _split_text_into_chunks (char_processor 4 1) fuel
               (lit "one two three"))
    [lit "one"; lit "two"; lit "o th"; lit "hree"; lit "e"].
Proof.
  apply (text_without_full_stop_fixed_windows (char_processor 4 1)
           (lit "one two three") (map code (lit "one two three"))).
  - simpl. lia.
  - exact char_encoding_lawful.
  - reflexivity.
  - by apply (bool_decide_unpack _); vm_compute.
Defined.

(** X6. A window that sentence snapping cuts back to exactly O tokens
    (O > 0) is followed by a window that starts where it started: from
    there on the loop does not come back, whatever the fuel. *)
Theorem window_cut_to_overlap_stalls self tokens start chunk_text :
  0 < chunk_overlap self ->
  start < len tokens ->
  window_end self tokens start = Some (start + chunk_overlap self) ->
  decode (encoding self) (slice tokens start (start + chunk_overlap self))
  = Some chunk_text ->
  next_start self (start + chunk_overlap self) = start
  /\ forall fuel chunks, token_loop self fuel tokens start chunks = OutOfFuel.
Proof.
  intros HO Hlt Hw Hd.
  assert (next_start self (start + chunk_overlap self) = start) as Hn.
  { rewrite next_start_overlap by lia. lia. }
  split; [done|]. by eapply token_loop_stuck.
Qed.

Lemma window_cut_to_overlap_stalls_witness :
  next_start (char_processor 4 2) 3 = 1
  /\ token_loop (char_processor 4 2) 1000 (map code (lit "ab.cdefgh")) 1 []
     = OutOfFuel.
Proof.
  destruct (window_cut_to_overlap_stalls (char_processor 4 2)
              (map code (lit "ab.cdefgh")) 1 (lit "b."))
    as [Hnext Hloop]; [by vm_compute..|].
  split; [exact Hnext | apply Hloop].
Defined.

End ChunkerMore.

(** ** More on the upload pipeline *)

Module ProcessorMore.
Import Py PyFacts DocumentProcessor ChunkerFacts PipelineFacts.

(** X1. The records of a processed file are numbered from 0 on, in order,
    each with the name of the file, its type (pdf, docx or txt), its own
    index and the number of records as total; the content of each is a
    chunk that is not empty after trimming. *)
Theorem processed_file_records self libs fuel file trace documents :
  process_uploaded_file self libs fuel file = (trace, Returns documents) ->
  exists file_type,
    _get_file_type (name file) = inr file_type
    /\ file_type ∈ [lit "pdf"; lit "docx"; lit "txt"]
    /\ forall i doc,
         documents !! i = Some doc ->
         exists chunk,
           content doc = Some chunk
           /\ strip chunk <> []
           /\ metadata doc
              = Some [ (lit "filename", VStr (name file));
                       (lit "file_type", VStr file_type);
                       (lit "chunk_index", VInt (Z.of_nat i));
                       (lit "total_chunks", VInt (len documents)) ].
Proof.
  unfold process_uploaded_file.
  destruct (_get_file_type (name file)) as [e|file_type] eqn:Htype; [done|].
  intros H. exists file_type.
  split_and!; [done | by eapply get_file_type_kinds |].
  destruct (if decide (file_type = lit "pdf") then _ else _)
    as [extraction [e|text]]; [done|].
  destruct (negb (truthy (strip text))); [done|].
  destruct (_split_text_into_chunks self fuel text) as [chunks|[]|] eqn:Hs;
    [|done].
  injection H as Htrace Hdocs. subst documents. intros i doc Hdoc.
  unfold make_documents in *. rewrite list_lookup_imap in Hdoc.
  destruct (chunks !! i) as [chunk|] eqn:Hi; [|done].
  injection Hdoc as <-. exists chunk. split_and!; [done | |].
  - apply split_well_trimmed in Hs.
    by apply (Forall_lookup_1 _ _ _ _ Hs Hi).
  - simpl. unfold len. by rewrite length_imap.
Qed.

Lemma processed_file_records_witness :
  let libs := {| pdf_pages := fun _ => None;
                 docx_document := fun _ => None;
                 utf8_decode := fun b => Some b |} in
  let file := {| name := lit "a.txt"; file_bytes := lit "one two three" |} in
  exists trace documents,
    process_uploaded_file (char_processor 4 1) libs 9 file
    = (trace, Returns documents)
    /\ length documents = 5%nat
    /\ forall i doc,
         documents !! i = Some doc ->
         exists chunk, content doc = Some chunk /\ strip chunk <> [].
Proof.
  intros libs file. eexists _, _.
  split_and!; [reflexivity | reflexivity |].
  intros i doc Hdoc.
  destruct (processed_file_records (char_processor 4 1) libs 9 file
              _ _ eq_refl) as (file_type & _ & _ & H).
  destruct (H i doc Hdoc) as (chunk & Hc & Hs & _). eauto.
Defined.

(** *** File types *)

Lemma lower_char_idem c : lower_char (lower_char c) = lower_char c.
Proof. by destruct c as [[] [] [] [] [] [] [] []]. Qed.

Lemma lower_idem s : lower (lower s) = lower s.
Proof.
  unfold lower. rewrite map_map. apply map_ext. apply lower_char_idem.
Qed.

Lemma lower_char_full_stop c : lower_char c = "."%char -> c = "."%char.
Proof. by destruct c as [[] [] [] [] [] [] [] []]. Qed.

(** X2. The type of a file does not depend on the case of its name; it is
    pdf, docx or txt or an error; and a name with no full stop is judged as
    a whole, in lower case. *)
Theorem file_type_ignores_case filename :
  _get_file_type (lower filename) = _get_file_type filename
  /\ (forall file_type,
         _get_file_type filename = inr file_type ->
         file_type ∈ [lit "pdf"; lit "docx"; lit "txt"])
  /\ ("."%char ∉ filename -> file_extension filename = lower filename).
Proof.
  split_and!.
  - unfold _get_file_type, file_extension. by rewrite lower_idem.
  - apply get_file_type_kinds.
  - intros Hno. unfold file_extension, last_item.
    destruct (split_spec "." (lower filename))
      as (init & lst & Hs & Htxt & _ & Hiff).
    assert (init = []) as ->.
    { apply Hiff. intros Hin. apply Hno. unfold lower in Hin.
      apply list_elem_of_fmap in Hin as (c & Hc & Hin).
      symmetry in Hc. apply lower_char_full_stop in Hc. by subst. }
    rewrite Hs. simpl in *. by rewrite Htxt.
Qed.

Lemma file_type_ignores_case_witness :
  _get_file_type (lit "TXT") = inr (lit "txt")
  /\ file_extension (lit "TXT") = lit "txt".
Proof.
  split; [reflexivity|].
  apply (file_type_ignores_case (lit "TXT")).
  by apply (bool_decide_unpack _); vm_compute.
Defined.

(** *** Files with nothing to chunk *)

Lemma blank_nl : blank nl.
Proof. by repeat constructor. Qed.

Lemma blank_pages pages (text : str) :
  blank text -> Forall blank pages ->
  blank (foldl (fun text page => text ++ (page ++ nl)) text pages).
Proof.
  intros Ht Hp. revert text Ht.
  induction Hp as [|page pages Hpage _ IH]; intros text Ht; simpl; [done|].
  apply IH. apply blank_app. split; [done|].
  apply blank_app. split; [done | apply blank_nl].
Qed.

Lemma strip_blank s : blank s -> strip s = [].
Proof. apply strip_nil. Qed.

(** X3. A file that cannot be read is refused with the error of its
    reader, and a file whose text is blank with the error for no text
    content; in both cases right after the extraction, whatever the
    tokenizer, the chunk size and the fuel. *)
Theorem unreadable_or_blank_file_is_refused self libs fuel file :
  (_get_file_type (name file) = inr (lit "txt") ->
   (utf8_decode libs (file_bytes file) = None ->
    process_uploaded_file self libs fuel file
    = ([Read; DecodeUtf8], Raises UnicodeDecodeError))
   /\ (forall text,
          utf8_decode libs (file_bytes file) = Some text -> blank text ->
          process_uploaded_file self libs fuel file
          = ([Read; DecodeUtf8], Raises NoTextContent)))
  /\ (_get_file_type (name file) = inr (lit "pdf") ->
      (pdf_pages libs (file_bytes file) = None ->
       process_uploaded_file self libs fuel file
       = ([Read; ExtractPdf], Raises PdfExtractionFailed))
      /\ (forall pages,
             pdf_pages libs (file_bytes file) = Some pages ->
             Forall blank pages ->
             process_uploaded_file self libs fuel file
             = ([Read; ExtractPdf], Raises NoTextContent)))
  /\ (_get_file_type (name file) = inr (lit "docx") ->
      docx_document libs (file_bytes file) = None ->
      process_uploaded_file self libs fuel file
      = ([Read; ExtractDocx], Raises DocxExtractionFailed)).
Proof.
  unfold process_uploaded_file. split_and!.
  - intros ->. repeat (case_decide; [discriminate|]).
    case_decide; [|done]. split.
    + by intros ->.
    + intros text -> Hb. by rewrite (strip_blank _ Hb).
  - intros ->. case_decide; [|done]. unfold _extract_pdf_text. split.
    + by intros ->.
    + intros pages -> Hb.
      rewrite (strip_blank (foldl _ _ _)); [done|].
      apply blank_pages; [constructor | done].
  - intros -> Hnone. case_decide; [discriminate|].
    case_decide; [|done]. unfold _extract_docx_text. by rewrite Hnone.
Qed.

Lemma unreadable_or_blank_file_is_refused_witness :
  let libs := {| pdf_pages := fun _ => None;
                 docx_document := fun _ => None;
                 utf8_decode := fun b => Some b |} in
  let file := {| name := lit "empty.txt"; file_bytes := lit "   " |} in
  process_uploaded_file (char_processor 1000 200) libs 0 file
  = ([Read; DecodeUtf8], Raises NoTextContent).
Proof.
  intros libs file.
  apply (proj2 (proj1 (unreadable_or_blank_file_is_refused
                         (char_processor 1000 200) libs 0 file) eq_refl)
           (lit "   ") eq_refl).
  by repeat constructor.
Defined.

(** *** Statistics *)

Lemma split_words_nil s word :
  split_words s word = [] <-> word = [] /\ blank s.
Proof.
  revert word. induction s as [|c s IH]; intros word; simpl.
  - destruct word; simpl; split; try done.
    + intros _. split; [done | constructor].
    + by intros [? _].
  - destruct (isspace c) eqn:Hc.
    + destruct word as [|w word]; simpl.
      * rewrite IH. split; intros [_ Hb]; split; try done.
        -- by constructor.
        -- by inversion Hb.
      * split; [done | by intros [? _]].
    + rewrite IH. split.
      * intros [Hw _]. by destruct word.
      * intros [_ Hb]. inversion Hb; congruence.
Qed.

Lemma words_nil s : words s = [] <-> blank s.
Proof. unfold words. rewrite split_words_nil. naive_solver. Qed.

(** X7. The statistics of a text never fail: the character count is the
    length of the text, the word count is zero for blank text only, the
    estimate is at least one. With a chunk size of zero the division raises
    and the token count is reported as zero. With a positive chunk size and
    a working tokenizer the token count is the number of tokens and the
    estimated chunks, S tokens each, do not exceed the larger of the tokens
    and S. *)
Theorem text_stats_bounds self text :
  let stats := get_text_stats self text in
  character_count stats = len text
  /\ 1 <= estimated_chunks stats
  /\ 0 <= token_count stats
  /\ (word_count stats = 0 <-> blank text)
  /\ (chunk_size self = 0 ->
      token_count stats = 0 /\ estimated_chunks stats = 1)
  /\ (forall tokens,
         encode (encoding self) text = Some tokens ->
         0 < chunk_size self ->
         token_count stats = len tokens
         /\ estimated_chunks stats * chunk_size self
            <= Z.max (len tokens) (chunk_size self)).
Proof.
  intros stats. subst stats. unfold get_text_stats, floordiv.
  assert (forall l : list str, len l = 0 <-> l = []) as Hlen0.
  { intros [|? ?]; unfold len; simpl; split; (done || lia). }
  destruct (encode (encoding self) text) as [tokens|] eqn:He;
    [destruct (Z.eqb_spec (chunk_size self) 0) as [HS|HS]|]; simpl.
  - split; [done|]. split; [lia|]. split; [lia|].
    split; [by rewrite Hlen0, words_nil|]. split; [done|].
    intros toks _ Hpos. lia.
  - split; [done|]. split; [lia|]. split; [apply len_nonneg|].
    split; [by rewrite Hlen0, words_nil|]. split; [intros; lia|].
    intros toks Htok Hpos. injection Htok as <-. split; [done|].
    pose proof (Z.mul_div_le (len tokens) (chunk_size self) Hpos).
    pose proof (len_nonneg tokens).
    assert (0 <= len tokens / chunk_size self) by (apply Z.div_pos; lia).
    destruct (Z.max_spec 1 (len tokens / chunk_size self)) as [[? ->]|[? ->]];
      lia.
  - split; [done|]. split; [lia|]. split; [lia|].
    split; [by rewrite Hlen0, words_nil|]. split; [done|].
    intros toks Htok. discriminate.
Qed.

Lemma text_stats_bounds_witness :
  let stats := get_text_stats (char_processor 4 1) (lit "one two three") in
  token_count stats = 13 /\ estimated_chunks stats * 4 <= 13.
Proof.
  intros stats.
  destruct (proj2 (proj2 (proj2 (proj2 (proj2
              (text_stats_bounds (char_processor 4 1) (lit "one two three"))))))
              (map code (lit "one two three")) eq_refl ltac:(done))
    as [Ht He].
  split; [exact Ht | exact He].
Defined.

End ProcessorMore.

(** ** More on the store adapter *)

Module ServiceMore.
Import Py PyFacts RAGService RAGFacts.

(** *** What an add sends and leaves *)

Lemma prepare_sent md5 (documents : list document) (texts : list str)
    (ids0 texts0 : list str) (metas0 : list dict) :
  mapM content documents = Some texts ->
  prepare md5 documents ids0 texts0 metas0
  = Some (ids0 ++ zip_with (fun c doc =>
                              _generate_doc_id md5 c (default [] (metadata doc)))
                           texts documents,
          texts0 ++ texts,
          metas0 ++ map (fun doc => default [] (metadata doc)) documents).
Proof.
  revert texts ids0 texts0 metas0.
  induction documents as [|doc documents IH]; intros texts ids0 texts0 metas0.
  - intros [= <-]. simpl. by rewrite !app_nil_r.
  - simpl. destruct (content doc) as [c|]; [|done]. simpl.
    destruct (mapM content documents) as [rest|] eqn:Hrest; [|done]. simpl.
    intros [= <-]. rewrite (IH rest) by done. simpl.
    by rewrite <- !app_assoc.
Qed.

Lemma collection_add_empty_metadata (policy : on_existing)
    (ids documents : list str) (metadatas : list dict) (recs : records) :
  [] ∈ metadatas -> collection_add policy ids documents metadatas recs = None.
Proof.
  intros Hin. unfold collection_add.
  destruct (negb (truthy ids)); [done|].
  destruct (negb (bool_decide _)); [done|].
  destruct (negb (bool_decide _)); [done|].
  assert (forallb truthy metadatas = false) as ->; [|done].
  apply not_true_is_false. intros H.
  rewrite forallb_forall in H.
  apply list_elem_of_In in Hin. by apply H in Hin.
Qed.

(** X8. A failed add leaves the records of the collection as they were,
    and an add never removes a record. A batch with a document that has no
    content is not sent at all. A batch whose documents all have content is
    sent in one call, with the identifier, the content and the metadata of
    each document in order. A batch with a document that has no metadata,
    or empty metadata, is refused by the store: the answer is [False]. *)
Theorem add_documents_effect (md5_hexdigest : bytes -> str)
    (policy : on_existing) (documents : list document) (st : state) :
  let result := add_documents md5_hexdigest policy documents st in
  (result.1 = false -> items result.2 = items st)
  /\ (forall k : str,
         is_Some (items st !! k) -> is_Some (items result.2 !! k))
  /\ (forall doc, doc ∈ documents -> content doc = None ->
        result = (false, st))
  /\ (forall texts,
         mapM content documents = Some texts -> documents <> [] ->
         calls result.2
         = calls st
           ++ [Add (zip_with (fun c doc =>
                                _generate_doc_id md5_hexdigest c
                                  (default [] (metadata doc)))
                             texts documents)
                   texts
                   (map (fun doc => default [] (metadata doc)) documents)])
  /\ (forall doc, doc ∈ documents -> default [] (metadata doc) = [] ->
        result.1 = false).
Proof.
  intros result. subst result. unfold add_documents.
  destruct documents as [|doc0 documents0] eqn:Hdocs; simpl truthy; cbv iota.
  { simpl. split_and!; try done.
    - intros doc Hin. by apply elem_of_nil in Hin.
    - intros doc Hin. by apply elem_of_nil in Hin. }
  rewrite <- Hdocs. simpl negb. cbv iota.
  destruct (prepare md5_hexdigest documents [] [] [])
    as [[[ids texts] metas]|] eqn:Hprep.
  2:{ simpl. split_and!; try done.
      intros texts Hm _. by rewrite (prepare_sent _ _ _ _ _ _ Hm) in Hprep. }
  assert (forall doc, doc ∈ documents -> content doc <> None) as Hall.
  { intros doc Hin Hc.
    by rewrite (prepare_missing_content _ _ _ _ _ doc Hin Hc) in Hprep. }
  assert (forall texts',
            mapM content documents = Some texts' ->
            ids = zip_with (fun c doc =>
                              _generate_doc_id md5_hexdigest c
                                (default [] (metadata doc))) texts' documents
            /\ texts = texts'
            /\ metas = map (fun doc => default [] (metadata doc)) documents)
    as Hsent.
  { intros texts' Hm. rewrite (prepare_sent _ _ _ _ _ _ Hm) in Hprep.
    by injection Hprep as <- <- <-. }
  apply prepare_rows in Hprep as (rows & Hrows & -> & -> & ->).
  simpl app in *.
  assert (forall doc, doc ∈ documents -> default [] (metadata doc) = [] ->
            [] ∈ rows.*2.*2) as Hempty.
  { intros doc Hin Hm. apply list_elem_of_lookup in Hin as [i Hi].
    destruct (Forall2_lookup_l _ _ _ _ _ Hrows Hi)
      as (row & Hrow & c & Hc & ->).
    apply list_elem_of_lookup_2 in Hrow.
    apply (list_elem_of_fmap_2 snd) in Hrow.
    apply (list_elem_of_fmap_2 snd) in Hrow. simpl in Hrow. by rewrite <- Hm. }
  destruct (collection_add policy rows.*1 rows.*2.*1 rows.*2.*2 (items st))
    as [recs1|] eqn:Hadd; simpl.
  - apply collection_add_rows in Hadd as Hrecs. destruct Hrecs as (-> & _).
    split_and!; try done.
    + intros k Hk. by apply foldl_add_present.
    + intros doc Hin Hc. by destruct (Hall doc Hin).
    + intros texts' Hm _. by destruct (Hsent texts' Hm) as (<- & <- & <-).
    + intros doc Hin Hm.
      by rewrite (collection_add_empty_metadata _ _ _ _ _ (Hempty doc Hin Hm))
        in Hadd.
  - split_and!; try done.
    + intros doc Hin Hc. by destruct (Hall doc Hin).
    + intros texts' Hm _. by destruct (Hsent texts' Hm) as (<- & <- & <-).
Qed.

Lemma add_documents_effect_witness :
  let md5 := fun b : bytes => b in
  let doc := {| content := Some (lit "hello"); metadata := None |} in
  let st := {| items := ∅; calls := [] |} in
  (add_documents md5 Overwrite [doc] st).1 = false
  /\ calls (add_documents md5 Overwrite [doc] st).2
     = [Add [_generate_doc_id md5 (lit "hello") []] [lit "hello"] [[]]].
Proof.
  intros md5 doc st.
  destruct (add_documents_effect md5 Overwrite [doc] st)
    as (_ & _ & _ & Hsent & Hempty).
  split.
  - by apply (Hempty doc); [left|].
  - by apply (Hsent [lit "hello"]).
Defined.

(** *** Search results *)

Lemma imap_pair_snd {A} (g : nat -> nat) (l : list A) :
  (imap (fun i x => (g i, x)) l).*2 = l.
Proof.
  revert g. induction l as [|x l IH]; intros g; simpl; [done|].
  f_equal. apply (IH (g ∘ S)).
Qed.

Lemma formatted_contents {distance}
    (f : nat * str -> option (search_result distance))
    (xs : list (nat * str)) (found : list (search_result distance)) :
  (forall x y, f x = Some y -> result_content y = x.2) ->
  mapM f xs = Some found -> map result_content found = xs.*2.
Proof.
  intros Hf H. apply mapM_Some_1 in H.
  induction H as [|x y xs found Hxy _ IH]; simpl; [done|].
  by rewrite (Hf _ _ Hxy), IH.
Qed.

Lemma mapM_pointwise {A B} (f g : A -> option B) (xs : list A) :
  (forall x, f x = g x) -> mapM f xs = mapM g xs.
Proof.
  intros H. induction xs as [|x xs IH]; simpl; [done|]. by rewrite H, IH.
Qed.

Lemma mapM_total {A B} (g : A -> B) (xs : list A) :
  mapM (fun x => Some (g x)) xs = Some (map g xs).
Proof.
  induction xs as [|x xs IH]; simpl; [done|]. by rewrite IH.
Qed.

(** X9. A search leaves the collection as it was and sends one query. Its
    answer is never a part of what the store found: it is empty, or it has
    one result for each document of the store's first row, in order. When
    the store sends no metadata and no distances, every result has empty
    metadata and no distance. *)
Theorem search_never_partial {distance}
    (collection_query :
       records -> list str -> Z -> option (query_result distance))
    (query : str) (n_results : Z) (st : state) :
  let result := search_documents collection_query query n_results st in
  items result.2 = items st
  /\ calls result.2 = calls st ++ [Query [query] n_results]
  /\ (result.1 = []
      \/ exists results row rest,
           collection_query (items st) [query] n_results = Some results
           /\ documents results = Some (row :: rest)
           /\ map result_content result.1 = row)
  /\ (forall results row rest,
         collection_query (items st) [query] n_results = Some results ->
         documents results = Some (row :: rest) ->
         present (metadatas results) = false ->
         present (distances results) = false ->
         result.1
         = map (fun doc => {| result_content := doc; result_metadata := [];
                              result_distance := None |}) row).
Proof.
  intros result. subst result. unfold search_documents.
  destruct (collection_query (items st) [query] n_results)
    as [results|] eqn:Hq.
  2:{ simpl. split_and!; [done | done | by left | done]. }
  destruct (format_results results) as [found|] eqn:Hf; simpl.
  2:{ split_and!; [done | done | by left |].
      intros ? row rest [= <-] Hdocs Hm Hd.
      unfold format_results in Hf. rewrite Hdocs, Hm, Hd in Hf. simpl in Hf.
      assert (mapM (fun '(i, doc) =>
                      Some {| result_content := doc; result_metadata := [];
                              result_distance := (None : option distance) |})
                   (imap pair row) = None) as Hnone by exact Hf.
      clear Hf. exfalso. revert Hnone.
      generalize (imap pair row). intros xs.
      induction xs as [|[i doc] xs IH]; simpl; [done|].
      destruct (mapM _ xs); [done | by intros _; apply IH]. }
  split_and!; [done | done | |].
  - unfold format_results in Hf.
    destruct (documents results) as [[|row rest]|] eqn:Hdocs; simpl in Hf;
      [injection Hf as <-; by left | | injection Hf as <-; by left].
    right. exists results, row, rest. split_and!; [done | done |].
    match type of Hf with
    | mapM ?f _ = _ =>
        assert (forall x y, f x = Some y -> result_content y = x.2) as Hcont
    end.
    { intros [i doc] y Hy. simpl in *.
      destruct (if present (metadatas results) then _ else _); [|done].
      destruct (if present (distances results) then _ else _); [|done].
      simpl in Hy. by injection Hy as <-. }
    rewrite (formatted_contents _ _ _ Hcont Hf).
    apply (imap_pair_snd id).
  - intros ? row rest [= <-] Hdocs Hm Hd.
    unfold format_results in Hf. rewrite Hdocs, Hm, Hd in Hf. simpl in Hf.
    assert (mapM (fun x : nat * str =>
                    Some {| result_content := x.2; result_metadata := [];
                            result_distance := (None : option distance) |})
                 (imap pair row) = Some found) as Hf'.
    { rewrite <- Hf. apply mapM_pointwise. by intros [i doc]. }
    rewrite mapM_total in Hf'. injection Hf' as <-.
    rewrite <- (imap_pair_snd id row) at 2. by rewrite map_map.
Qed.

Lemma search_never_partial_witness :
  let answer : query_result Z :=
    {| documents := Some [[lit "near"; lit "far"]];
       metadatas := None; distances := None |} in
  (search_documents (fun _ _ _ => Some answer) (lit "q") 5
     {| items := ∅; calls := [] |}).1
  = [ {| result_content := lit "near"; result_metadata := [];
         result_distance := None |};
      {| result_content := lit "far"; result_metadata := [];
         result_distance := None |} ].
Proof.
  intros answer.
  apply (proj2 (proj2 (proj2 (search_never_partial
                                (fun _ _ _ => Some answer) (lit "q") 5
                                {| items := ∅; calls := [] |})))
           answer [lit "near"; lit "far"] [] eq_refl eq_refl eq_refl eq_refl).
Defined.

End ServiceMore.

(** ** Starting the service *)

Module StartupFacts.
Import Py RAGService.

Lemma same_service_refl s : same_service s s = true.
Proof. by destruct s. Qed.

Lemma same_service_other s s' : s' <> s -> same_service s' s = false.
Proof. by destruct s, s'. Qed.

Lemma attempts_of_app s a b :
  attempts_of s (a ++ b) = (attempts_of s a + attempts_of s b)%nat.
Proof.
  unfold attempts_of. induction a as [|e a IH]; simpl; [done|].
  destruct e as [s' n|?|]; [|done..].
  destruct (same_service s' s); simpl; by rewrite IH.
Qed.

Lemma seconds_slept_app a b :
  seconds_slept (a ++ b) = seconds_slept a + seconds_slept b.
Proof.
  unfold seconds_slept. induction a as [|e a IH]; simpl; [done|].
  destruct e; rewrite ?IH; lia.
Qed.

(** One loop, from any of its rounds on: it ends with a client or gives
    up, it tries at least once and no more often than it has rounds, and it
    sleeps between two attempts only. *)
Lemma connect_loop_bounds s up rounds attempt :
  (attempt + rounds = max_retries)%nat -> (1 <= rounds)%nat ->
  let result := connect_loop s up attempt rounds in
  result.2 <> Untried
  /\ (1 <= attempts_of s result.1 <= rounds)%nat
  /\ seconds_slept result.1
     = retry_delay * (Z.of_nat (attempts_of s result.1) - 1)
  /\ (forall s', s' <> s -> attempts_of s' result.1 = 0%nat)
  /\ (GetOrCreateCollection ∉ result.1).
Proof.
  unfold max_retries, retry_delay. revert attempt.
  induction rounds as [|rounds IH]; intros attempt Hsum Hr; [lia|].
  cbn [connect_loop]. destruct (up attempt).
  { simpl. rewrite same_service_refl. split_and!; [done | lia | lia | lia | |].
    - intros s' Hs'. by rewrite same_service_other.
    - by intros [?|?%elem_of_nil]%elem_of_cons. }
  unfold max_retries.
  destruct (Nat.ltb_spec attempt (10 - 1)) as [Hlt|Hge].
  - destruct (IH (S attempt) ltac:(lia) ltac:(lia))
      as (Hu & Ha & Hsl & Ho & Hg).
    destruct (connect_loop s up (S attempt) rounds) as [events result].
    simpl in *. rewrite same_service_refl. unfold retry_delay.
    split_and!; [done | lia | lia | lia | |].
    + intros s' Hs'. rewrite same_service_other by done. by apply Ho.
    + intros [?|[?|?]%elem_of_cons]%elem_of_cons; done.
  - simpl. rewrite same_service_refl. split_and!; [done | lia | lia | lia | |].
    + intros s' Hs'. by rewrite same_service_other.
    + by intros [?|?%elem_of_nil]%elem_of_cons.
Qed.

(** The loop ends with a client exactly when one of the attempts left gets
    through, and then it has tried once for that attempt and once for each
    one before it. *)
Lemma connect_loop_connects s up rounds attempt :
  (attempt + rounds = max_retries)%nat ->
  let result := connect_loop s up attempt rounds in
  (result.2 = Connected
   <-> exists k, (attempt <= k < max_retries)%nat /\ up k = true)
  /\ (forall k,
         (attempt <= k < max_retries)%nat -> up k = true ->
         (forall j, (attempt <= j < k)%nat -> up j = false) ->
         attempts_of s result.1 = (k - attempt + 1)%nat).
Proof.
  unfold max_retries. revert attempt.
  induction rounds as [|rounds IH]; intros attempt Hsum.
  { simpl. split; [|intros k Hk; lia].
    split; [done | intros (k & Hk & _); lia]. }
  cbn [connect_loop]. destruct (up attempt) eqn:Hup.
  { simpl. rewrite same_service_refl. split.
    - split; [intros _; exists attempt; split; [lia | done] | done].
    - intros k Hk Hupk Hfirst.
      destruct (decide (k = attempt)) as [->|Hne]; [lia|].
      rewrite (Hfirst attempt) in Hup by lia. done. }
  unfold max_retries.
  destruct (Nat.ltb_spec attempt (10 - 1)) as [Hlt|Hge].
  - destruct (IH (S attempt) ltac:(lia)) as [Hiff Hcount].
    destruct (connect_loop s up (S attempt) rounds) as [events result].
    simpl in *. rewrite same_service_refl. split.
    + rewrite Hiff. split; intros (k & Hk & Hupk); exists k.
      * split; [lia | done].
      * split; [|done]. destruct (decide (k = attempt)) as [->|]; [|lia].
        congruence.
    + intros k Hk Hupk Hfirst.
      destruct (decide (k = attempt)) as [->|Hne]; [congruence|].
      rewrite (Hcount k) by (done || lia || (intros; apply Hfirst; lia)). lia.
  - simpl. split.
    + split; [done|]. intros (k & Hk & Hupk).
      assert (k = attempt) as -> by lia. congruence.
    + intros k Hk Hupk Hfirst. assert (k = attempt) as -> by lia. congruence.
Qed.

(** How one retry loop ends. *)
Lemma connect_loop_ends s up :
  let result := connect_loop s up 0 max_retries in
  result.2 <> Untried
  /\ (1 <= attempts_of s result.1 <= 10)%nat
  /\ seconds_slept result.1 = 5 * (Z.of_nat (attempts_of s result.1) - 1)
  /\ (result.2 = Connected <-> exists k, (k < 10)%nat /\ up k = true)
  /\ (result.2 = GaveUp <-> forall k, (k < 10)%nat -> up k = false).
Proof.
  intros result.
  destruct (connect_loop_bounds s up max_retries 0 eq_refl)
    as (Hu & Ha & Hs & _ & _); [unfold max_retries; lia|].
  destruct (connect_loop_connects s up max_retries 0 eq_refl) as [Hiff _].
  fold result in Hu, Ha, Hs, Hiff.
  unfold max_retries, retry_delay in *.
  assert (result.2 = Connected <-> exists k, (k < 10)%nat /\ up k = true)
    as Hconn.
  { rewrite Hiff. split; intros (k & Hk & Hup); exists k; (split; [lia|done]). }
  split; [done|]. split; [lia|]. split; [lia|]. split; [done|].
  split.
  - intros Hg k Hk. destruct (up k) eqn:Hup; [|done].
    assert (result.2 = Connected) as Hc by (apply Hconn; eauto).
    congruence.
  - intros Hall.
    assert (result.2 <> Connected) as Hnc.
    { intros Hc. apply Hconn in Hc as (k & Hk & Hup).
      by rewrite Hall in Hup. }
    by destruct (result.2).
Qed.

(** X10. Each retry loop of [_initialize_clients] tries a service at least
    once and at most ten times, sleeps five seconds between two attempts
    and never after the last one (45 seconds at most), and ends with a
    client exactly when one of the ten attempts gets through: after k
    failures and a success it has made k + 1 attempts. *)
Theorem connection_retries_are_bounded s up :
  let result := connect_loop s up 0 max_retries in
  result.2 <> Untried
  /\ (1 <= attempts_of s result.1 <= 10)%nat
  /\ seconds_slept result.1 = 5 * (Z.of_nat (attempts_of s result.1) - 1)
  /\ seconds_slept result.1 <= 45
  /\ (result.2 = Connected <-> exists k, (k < 10)%nat /\ up k = true)
  /\ (result.2 = GaveUp <-> forall k, (k < 10)%nat -> up k = false)
  /\ (forall k,
         (k < 10)%nat -> up k = true ->
         (forall j, (j < k)%nat -> up j = false) ->
         attempts_of s result.1 = S k).
Proof.
  intros result.
  destruct (connect_loop_ends s up) as (Hu & Ha & Hs & Hconn & Hgave).
  destruct (connect_loop_connects s up max_retries 0 eq_refl) as [_ Hcount].
  fold result in Hu, Ha, Hs, Hconn, Hgave, Hcount.
  unfold max_retries in *.
  split; [done|]. split; [lia|]. split; [done|]. split; [lia|].
  split; [done|]. split; [done|].
  intros k Hk Hup Hfirst.
  rewrite (Hcount k) by (done || lia || (intros; apply Hfirst; lia)). lia.
Qed.

Lemma connection_retries_are_bounded_witness :
  let up := fun attempt => (2 <=? attempt)%nat in
  attempts_of Chroma (connect_loop Chroma up 0 max_retries).1 = 3%nat.
Proof.
  intros up.
  apply (proj2 (proj2 (proj2 (proj2 (proj2 (proj2
           (connection_retries_are_bounded Chroma up)))))) 2%nat).
  - lia.
  - reflexivity.
  - intros j Hj. destruct j as [|[|j]]; [reflexivity | reflexivity | lia].
Defined.

(** X11. The service is built exactly when the generation service and the
    store each get through within ten attempts and the collection is got
    or made. The store is not tried before the generation service has
    answered, the collection is not asked for before both have, and the
    whole start sleeps 90 seconds at most. *)
Theorem startup_order ollama_up chroma_up collection_ok :
  let result := _initialize_clients ollama_up chroma_up collection_ok in
  (result.2 = true
   <-> (exists k, (k < 10)%nat /\ ollama_up k = true)
       /\ (exists k, (k < 10)%nat /\ chroma_up k = true)
       /\ collection_ok = true)
  /\ ((forall k, (k < 10)%nat -> ollama_up k = false) ->
      attempts_of Chroma result.1 = 0%nat
      /\ GetOrCreateCollection ∉ result.1)
  /\ ((forall k, (k < 10)%nat -> chroma_up k = false) ->
      GetOrCreateCollection ∉ result.1)
  /\ (attempts_of Ollama result.1 <= 10)%nat
  /\ (attempts_of Chroma result.1 <= 10)%nat
  /\ seconds_slept result.1 <= 90.
Proof.
  intros result. subst result. unfold _initialize_clients.
  pose proof (connect_loop_ends Ollama ollama_up)
    as (Hou & Hoa & Hos & Hoc & Hog).
  pose proof (connect_loop_ends Chroma chroma_up)
    as (Hcu & Hca & Hcs & Hcc & Hcg).
  destruct (connect_loop_bounds Ollama ollama_up max_retries 0 eq_refl)
    as (_ & _ & _ & Hoo & Hogc); [unfold max_retries; lia|].
  destruct (connect_loop_bounds Chroma chroma_up max_retries 0 eq_refl)
    as (_ & _ & _ & Hco & Hcgc); [unfold max_retries; lia|].
  pose proof (Hoo Chroma ltac:(done)) as Hoo'.
  pose proof (Hco Ollama ltac:(done)) as Hco'.
  destruct (connect_loop Ollama ollama_up 0 max_retries)
    as [ollama_events ollama].
  destruct (connect_loop Chroma chroma_up 0 max_retries)
    as [chroma_events chroma].
  simpl in *.
  destruct ollama; [|clear Hoc|done].
  - destruct chroma; [|clear Hcc|done]; simpl.
    + rewrite !attempts_of_app, !seconds_slept_app. simpl.
      split; [|split; [|split; [|split; [lia|split; lia]]]].
      * split.
        -- intros ->. split_and!; [by apply Hoc | by apply Hcc | done].
        -- by intros (_ & _ & ->).
      * intros Hall. exfalso.
        destruct (proj1 Hoc eq_refl) as (k & Hk & Hup).
        by rewrite Hall in Hup.
      * intros Hall. exfalso.
        destruct (proj1 Hcc eq_refl) as (k & Hk & Hup).
        by rewrite Hall in Hup.
    + rewrite !attempts_of_app, !seconds_slept_app.
      split; [|split; [|split; [|split; [lia|split; lia]]]].
      * split; [done|]. intros (_ & (k & Hk & Hup) & _).
        by rewrite (proj1 Hcg eq_refl k Hk) in Hup.
      * intros Hall. exfalso.
        destruct (proj1 Hoc eq_refl) as (k & Hk & Hup).
        by rewrite Hall in Hup.
      * intros _. intros [?|?]%elem_of_app; done.
  - simpl. split; [|split; [|split; [|split; [lia|split; lia]]]].
    + split; [done|]. intros ((k & Hk & Hup) & _).
      by rewrite (proj1 Hog eq_refl k Hk) in Hup.
    + done.
    + done.
Qed.

Lemma startup_order_witness :
  let down := fun _ : nat => false in
  let up := fun _ : nat => true in
  attempts_of Chroma (_initialize_clients down up true).1 = 0%nat
  /\ (_initialize_clients down up true).2 = false.
Proof.
  intros down up. split; [|reflexivity].
  by apply (proj1 (proj2 (startup_order down up true))).
Defined.

End StartupFacts.

(** ** The page *)

Module AppFacts.
Import Py PyFacts DocumentProcessor RAGService RAGFacts App.

(** *** The batch of uploaded files *)

(** The loop over the files, from any records and reports gathered so
    far. *)
Lemma process_files_reports libs processor fuel files :
  Forall (fun file =>
            (process_uploaded_file processor libs fuel file).2 <> OutOfFuel)
         files ->
  forall all_documents messages,
  exists documents reports,
    process_files libs processor fuel files all_documents messages
    = Returns (all_documents ++ documents, messages ++ reports)
    /\ documents
       = flat_map (fun file =>
                     default [] (documents_of libs processor fuel file)) files
    /\ Forall2 (fun file report =>
                  match (process_uploaded_file processor libs fuel file).2 with
                  | Returns documents =>
                      report = Processed (name file) (length documents)
                  | Raises e => report = ProcessingError (name file) e
                  | OutOfFuel => False
                  end) files reports.
Proof.
  induction 1 as [|file files Hfile _ IH]; intros all_documents messages.
  - exists [], []. simpl. by rewrite !app_nil_r.
  - simpl. unfold documents_of at 1.
    destruct (process_uploaded_file processor libs fuel file).2
      as [documents|e|] eqn:Hrun; [| |done].
    + destruct (IH (all_documents ++ documents)
                  (messages ++ [Processed (name file) (length documents)]))
        as (rest & reports & -> & -> & Hreports).
      eexists _, (_ :: reports). rewrite <- !app_assoc.
      split_and!; [done | done |].
      constructor; [by rewrite Hrun | done].
    + destruct (IH all_documents
                  (messages ++ [ProcessingError (name file) e]))
        as (rest & reports & -> & -> & Hreports).
      eexists _, (_ :: reports). rewrite <- !app_assoc.
      split_and!; [done | done |].
      constructor; [by rewrite Hrun | done].
Qed.

(** A failed add leaves the records as they were. *)
Lemma add_documents_failed md5 policy documents st :
  (add_documents md5 policy documents st).1 = false ->
  items (add_documents md5 policy documents st).2 = items st.
Proof.
  unfold add_documents. destruct (negb (truthy documents)); [done|].
  destruct (prepare md5 documents [] [] []) as [[[ids texts] metas]|]; [|done].
  by destruct (collection_add policy ids texts metas (items st)).
Qed.

(** X12. A file that fails does not stop the batch. When the processing
    of every file comes back, with records or with an error, the loop over
    the files comes back with the records of the files that were processed,
    in order, and with one report for each file, in order: its name with
    the number of its records, or its name with its error. *)
Theorem failed_file_does_not_stop_batch libs processor fuel files :
  Forall (fun file =>
            (process_uploaded_file processor libs fuel file).2 <> OutOfFuel)
         files ->
  exists reports,
    process_files libs processor fuel files [] []
    = Returns (flat_map (fun file =>
                           default [] (documents_of libs processor fuel file))
                        files,
               reports)
    /\ Forall2 (fun file report =>
                  match (process_uploaded_file processor libs fuel file).2 with
                  | Returns documents =>
                      report = Processed (name file) (length documents)
                  | Raises e => report = ProcessingError (name file) e
                  | OutOfFuel => False
                  end) files reports.
Proof.
  intros Hfiles.
  destruct (process_files_reports libs processor fuel files Hfiles [] [])
    as (documents & reports & Hrun & -> & Hreports).
  by exists reports.
Qed.

(** X13. When the tokenizer cannot be loaded, [process_documents] reports
    a crash and leaves the session as it was. Otherwise, when every file
    comes back, it shows one report per file and one closing message, and
    leaves the chat history alone. With no record at all the closing
    message is the warning and the session is as it was. When the add
    succeeds the message tells the number of records, the documents are
    marked as loaded and the store is what [add_documents] left. When the
    add fails the message says so, the mark is as it was and the
    collection holds what it held. *)
Theorem process_documents_outcome get_encoding libs md5_hexdigest policy
    fuel files S_ O_ s :
  let run :=
    process_documents get_encoding libs md5_hexdigest policy fuel files
      S_ O_ s in
  (get_encoding = None -> run = Returns ([Crashed], s))
  /\ (forall enc,
         get_encoding = Some enc ->
         let processor :=
           {| chunk_size := S_; chunk_overlap := O_; encoding := enc |} in
         let all_documents :=
           flat_map (fun file =>
                       default [] (documents_of libs processor fuel file))
                    files in
         Forall (fun file =>
                   (process_uploaded_file processor libs fuel file).2
                   <> OutOfFuel) files ->
         exists reports final s',
           run = Returns (reports ++ [final], s')
           /\ length reports = length files
           /\ chat_history s' = chat_history s
           /\ (all_documents = [] -> final = NothingProcessed /\ s' = s)
           /\ (all_documents <> [] ->
               (add_documents md5_hexdigest policy all_documents (rag s)).1
               = true ->
               final = Added (length all_documents)
               /\ documents_loaded s' = true
               /\ rag s'
                  = (add_documents md5_hexdigest policy all_documents
                       (rag s)).2)
           /\ (all_documents <> [] ->
               (add_documents md5_hexdigest policy all_documents (rag s)).1
               = false ->
               final = AddFailed
               /\ documents_loaded s' = documents_loaded s
               /\ items (rag s') = items (rag s))).
Proof.
  intros run. subst run. unfold process_documents. split.
  - by intros ->.
  - intros enc Henc Hfiles. rewrite Henc.
    set (processor := {| chunk_size := S_; chunk_overlap := O_;
                         encoding := enc |}) in *.
    set (all_documents :=
           flat_map (fun file =>
                       default [] (documents_of libs processor fuel file))
                    files) in *.
    destruct (process_files_reports libs processor fuel files Hfiles [] [])
      as (documents & reports & Hrun & Hdocs & Hreports).
    rewrite Hrun. simpl app. fold all_documents in Hdocs.
    subst documents. clearbody all_documents.
    destruct (truthy all_documents) eqn:Hall.
    + apply truthy_true in Hall.
      destruct (add_documents md5_hexdigest policy all_documents (rag s))
        as [[] rag'] eqn:Hadd.
      * eexists reports, _, _. split_and!; [done | | done | done | |].
        -- by rewrite (Forall2_length _ _ _ Hreports).
        -- by intros _ _.
        -- by intros _ [=].
      * eexists reports, _, _. split_and!; [done | | done | done | |].
        -- by rewrite (Forall2_length _ _ _ Hreports).
        -- by intros _ [=].
        -- intros _ _. split_and!; [done | done |]. simpl.
           pose proof (add_documents_failed md5_hexdigest policy
                         all_documents (rag s)) as Hfail.
           rewrite Hadd in Hfail. by apply Hfail.
    + apply truthy_false in Hall.
      exists reports, NothingProcessed, s.
      split_and!; [done | | done | done | done | done].
      by rewrite (Forall2_length _ _ _ Hreports).
Qed.

Lemma failed_file_does_not_stop_batch_witness :
  let libs := {| pdf_pages := fun _ => None;
                 docx_document := fun _ => None;
                 utf8_decode := fun b => Some b |} in
  let files := [ {| name := lit "a.csv"; file_bytes := lit "1,2" |};
                 {| name := lit "b.txt"; file_bytes := lit "hello" |} ] in
  exists reports,
    process_files libs (char_processor 1000 200) 5 files [] []
    = Returns ([{| content := Some (lit "hello");
                   metadata := Some [ (lit "filename", VStr (lit "b.txt"));
                                      (lit "file_type", VStr (lit "txt"));
                                      (lit "chunk_index", VInt 0);
                                      (lit "total_chunks", VInt 1) ] |}],
               reports).
Proof.
  intros libs files.
  destruct (failed_file_does_not_stop_batch libs (char_processor 1000 200) 5
              files) as (reports & Hrun & _).
  - by repeat constructor.
  - by exists reports.
Defined.

Lemma process_documents_outcome_witness :
  let libs := {| pdf_pages := fun _ => None;
                 docx_document := fun _ => None;
                 utf8_decode := fun b => Some b |} in
  let files := [ {| name := lit "a.csv"; file_bytes := lit "1,2" |};
                 {| name := lit "b.txt"; file_bytes := lit "hello" |} ] in
  let s := {| rag := {| items := ∅; calls := [] |};
              documents_loaded := false; chat_history := [] |} in
  exists reports s',
    process_documents (Some char_encoding) libs (fun b => b) Overwrite 5
      files 1000 200 s
    = Returns (reports ++ [Added 1], s')
    /\ length reports = 2%nat
    /\ documents_loaded s' = true.
Proof.
  intros libs files s.
  destruct (proj2 (process_documents_outcome (Some char_encoding) libs
                     (fun b => b) Overwrite 5 files 1000 200 s)
              char_encoding eq_refl)
    as (reports & final & s' & Hrun & Hlen & _ & _ & Hadded & _).
  - by repeat constructor.
  - destruct Hadded as (-> & Hloaded & _); [done | reflexivity |].
    by exists reports, s'.
Defined.

(** *** Chat *)

Lemma search_documents_state {distance}
    (collection_query :
       records -> list str -> Z -> option (query_result distance))
    (query : str) (n_results : Z) (st : state) :
  (search_documents collection_query query n_results st).2
  = {| items := items st; calls := calls st ++ [Query [query] n_results] |}.
Proof.
  unfold search_documents.
  destruct (collection_query (items st) [query] n_results) as [results|];
    [|done].
  by destruct (format_results results).
Qed.

Lemma contents_as_context {distance} (found : list (search_result distance)) :
  mapM content (map as_context found) = Some (map result_content found).
Proof.
  induction found as [|r found IH]; simpl; [done|]. by rewrite IH.
Qed.

(** X14. A chat query never changes the records of the collection or the
    mark for loaded documents, and an empty query does nothing. When the
    search finds nothing the generation service is not called: the one call
    sent is the query, the page warns that no relevant document was found,
    and the history gains the question only. When the search finds
    results, the calls sent are the query and one generation, with the
    prompt made of the contents found, and the history gains the question
    and the answer: the text of the service, or the error text of
    [generate_response]. *)
Theorem chat_query_short_circuit {distance}
    (collection_query :
       records -> list str -> Z -> option (query_result distance))
    (ollama_generate : str -> str -> generation)
    (query selected_model : str) (s : session) :
  let result := chat_query collection_query ollama_generate query
                  selected_model s in
  let found := (search_documents collection_query query 5 (rag s)).1 in
  let prompt :=
    make_prompt (join (nl ++ nl) (map result_content found)) query in
  items (rag result.2) = items (rag s)
  /\ documents_loaded result.2 = documents_loaded s
  /\ (query = [] -> result = ([], s))
  /\ (query <> [] -> found = [] ->
      result.1 = [NoRelevantDocuments]
      /\ chat_history result.2 = chat_history s ++ [(User, query)]
      /\ calls (rag result.2) = calls (rag s) ++ [Query [query] 5])
  /\ (query <> [] -> found <> [] ->
      result.1 = []
      /\ calls (rag result.2)
         = calls (rag s) ++ [Query [query] 5; Generate selected_model prompt]
      /\ exists response,
           chat_history result.2
           = chat_history s ++ [(User, query); (Assistant, response)]
           /\ match ollama_generate selected_model prompt with
              | inr (Some answer) => response = answer
              | inr None => response = error_prefix ++ lit "'response'"
              | inl e => response = error_prefix ++ e
              end).
Proof.
  intros result found prompt. subst result prompt found. unfold chat_query.
  destruct (truthy query) eqn:Hquery; simpl negb; cbv iota.
  2:{ apply truthy_false in Hquery. subst query.
      split_and!; try done; intros H; by destruct H. }
  apply truthy_true in Hquery.
  pose proof (search_documents_state collection_query query 5 (rag s))
    as Hstate.
  destruct (search_documents collection_query query 5 (rag s))
    as [relevant_docs rag1] eqn:Hsearch.
  cbn [fst snd] in *. subst rag1.
  destruct (truthy relevant_docs) eqn:Hfound.
  - apply truthy_true in Hfound.
    unfold generate_response. rewrite contents_as_context.
    destruct (ollama_generate selected_model _) as [e|[answer|]];
      cbn [fst snd rag documents_loaded chat_history items calls];
      rewrite <- !app_assoc;
      (split_and!; [done | done | done | done |]);
      intros _ _; split_and!; try done; eauto.
  - apply truthy_false in Hfound. subst relevant_docs.
    cbn [fst snd rag documents_loaded chat_history items calls].
    split_and!; [done | done | done | done |].
    intros _ H. by destruct H.
Qed.

Lemma chat_query_short_circuit_witness :
  let empty_store : records -> list str -> Z -> option (query_result Z) :=
    fun _ _ _ => Some {| documents := Some [[]]; metadatas := Some [[]];
                         distances := Some [[]] |} in
  let model : str -> str -> generation := fun _ _ => inr (Some (lit "yes")) in
  let s := {| rag := {| items := ∅; calls := [] |};
              documents_loaded := true; chat_history := [] |} in
  (chat_query empty_store model (lit "why?") (lit "llama2") s).1
  = [NoRelevantDocuments]
  /\ calls (rag (chat_query empty_store model (lit "why?") (lit "llama2") s).2)
     = [Query [lit "why?"] 5].
Proof.
  intros empty_store model s.
  destruct (chat_query_short_circuit empty_store model (lit "why?")
              (lit "llama2") s) as (_ & _ & _ & Hnone & _).
  destruct Hnone as (Hmsg & _ & Hcalls); [done | reflexivity |].
  by split.
Defined.

End AppFacts.
